(** * The pseudo-filesystem name resolver of NuttX (fs/inode/fs_inodesearch.c)
    and pthread_condattr_init (libs/libc/pthread/pthread_condattr_init.c).

    A shallow embedding of the C functions
      _inode_compare, inode_nextname, inode_search_nofollow,
      inode_linktarget, inode_search (CONFIG_PSEUDOFS_SOFTLINKS defined)
      and pthread_condattr_init,
    followed by the properties of the resolver proved about them. *)

From Stdlib Require Import ZArith Ascii String Lia.
From stdpp Require Import base option gmap strings.

Local Open Scope Z_scope.

(** ** C strings

    A [const char *] is modelled by the bytes that follow the pointer in its
    buffer: reading at the end of a Rocq string reads the terminating NUL of
    the C string.  A zero byte inside a Rocq string is read as what it is. *)

Definition NUL : ascii := Ascii.zero.
Definition SLASH : ascii := "/"%char.

(** [*p] *)
Definition deref (p : string) : ascii :=
  match p with
  | EmptyString => NUL
  | String c _ => c
  end.

(** [p + 1], for a pointer that is not at the terminator. *)
Definition advance (p : string) : string :=
  match p with
  | EmptyString => EmptyString
  | String _ rest => rest
  end.

Definition is_nul (c : ascii) : bool := Ascii.eqb c NUL.
Definition is_slash (c : ascii) : bool := Ascii.eqb c SLASH.

(** [!*fname || *fname == '/'] *)
Definition at_segment_end (fname : string) : bool :=
  is_nul (deref fname) || is_slash (deref fname).

(** ** The platform

    Three things the resolver depends on are fixed outside fs_inodesearch.c:
    whether plain [char] is a signed type and how large an [unsigned int] is
    (the C implementation decides both), and the constant SYMLOOP_MAX of
    <limits.h>. *)

Record platform := Platform {
  char_is_signed : bool;
  UINT_MAX : Z;
  SYMLOOP_MAX : Z
}.

(** The value of a [char] object after the integer promotions. *)
Definition char_value (pf : platform) (c : ascii) : Z :=
  let v := Z.of_N (N_of_ascii c) in
  if char_is_signed pf && (128 <=? v) then v - 256 else v.

(** The byte read as [unsigned char]. *)
Definition byte_value (c : ascii) : Z := Z.of_N (N_of_ascii c).

(** ** Inodes *)

Definition addr := positive.

(** A [struct inode *]: NULL or the address of an inode. *)
Definition ptr := option addr.

(** Modelled from the spec: the flag word [i_flags] and the macros
    INODE_IS_MOUNTPT and INODE_IS_SOFTLINK are declared in nuttx/fs/fs.h and
    inode/inode.h, which are not part of the sources at hand.  The spec gives
    a node a kind with two mutually exclusive predicates, is_mountpoint and
    is_softlink, and gives a softlink node its link target (the union member
    [u.i_link]), an absolute path string owned by the node. *)
Inductive inode_kind :=
  | Ordinary
  | Mountpoint
  | Softlink (i_link : string).

Record inode := Inode {
  i_peer : ptr;
  i_child : ptr;
  i_kind : inode_kind;
  i_name : option string
}.

Definition INODE_IS_MOUNTPT (node : inode) : bool :=
  match i_kind node with Mountpoint => true | _ => false end.

Definition INODE_IS_SOFTLINK (node : inode) : bool :=
  match i_kind node with Softlink _ => true | _ => false end.

(** The inode memory and the global [g_root_inode]. *)
Record filesystem := Filesystem {
  inodes : gmap addr inode;
  g_root_inode : ptr
}.

(** ** _inode_compare *)

(** The [for (;;)] loop of _inode_compare.  Every iteration either returns or
    advances both pointers, so the loop is structural in the node name. *)
Fixpoint compare_loop (pf : platform) (fname nname : string) {struct nname} : Z :=
  match nname with
  | EmptyString =>
      (* !*nname *)
      if at_segment_end fname then 0 else 1
  | String cn nname' =>
      if is_nul cn then
        if at_segment_end fname then 0 else 1
      else if at_segment_end fname then -1
      else if char_value pf (deref fname) >? char_value pf cn then 1
      else if char_value pf (deref fname) <? char_value pf cn then -1
      else compare_loop pf (advance fname) nname'
  end.

Definition _inode_compare (pf : platform) (fname : option string) (node : inode) : Z :=
  match i_name node with
  | None => 1
  | Some nname =>
      match fname with
      | None => -1
      | Some fname => compare_loop pf fname nname
      end
  end.

(** ** inode_nextname *)

(** The scan of inode_nextname: advance while the byte is neither NUL nor
    the delimiter. *)
Fixpoint skip_segment (name : string) : string :=
  match name with
  | EmptyString => EmptyString
  | String c rest =>
      if negb (is_nul c) && negb (is_slash c) then skip_segment rest else name
  end.

Definition inode_nextname (name : string) : string :=
  let name := skip_segment name in
  if negb (is_nul (deref name)) then advance name else name.

(** ** Outcomes of a call

    The two walkers call each other and the link resolver loops on the tree,
    so they are defined by recursion on a fuel: every loop iteration and every
    call takes one unit.  A call returns ([Done]), reads through a pointer to
    no inode or past the end of a string ([Fault]), or is still running when
    the fuel is spent ([OutOfFuel]). *)

Inductive outcome (A : Type) : Type :=
  | Done (a : A)
  | Fault
  | OutOfFuel.
Arguments Done {A} a.
Arguments Fault {A}.
Arguments OutOfFuel {A}.

#[export] Instance outcome_ret : MRet outcome := @Done.
#[export] Instance outcome_bind : MBind outcome := fun A B f c =>
  match c with
  | Done a => f a
  | Fault => Fault
  | OutOfFuel => OutOfFuel
  end.

(** ** The caller's out-parameters

    [peer], [parent] and [relpath] are pointers to variables of the caller, or
    NULL.  The three variables are the cells of a [memory]; an argument is
    [true] when it points to its cell and [false] when it is NULL.  Every
    store is also recorded, latest first. *)

Inductive write :=
  | WritePeer (v : ptr)
  | WriteParent (v : ptr)
  | WriteRelpath (v : string).

Record memory := Memory {
  peer_cell : ptr;
  parent_cell : ptr;
  relpath_cell : option string;
  writes : list write
}.

(** [if (peer) *peer = v;] *)
Definition store_peer (peer : bool) (v : ptr) (m : memory) : memory :=
  if peer
  then Memory v (parent_cell m) (relpath_cell m) (WritePeer v :: writes m)
  else m.

(** [if (parent) *parent = v;] *)
Definition store_parent (parent : bool) (v : ptr) (m : memory) : memory :=
  if parent
  then Memory (peer_cell m) v (relpath_cell m) (WriteParent v :: writes m)
  else m.

(** [if (relpath) *relpath = v;] *)
Definition store_relpath (relpath : bool) (v : string) (m : memory) : memory :=
  if relpath
  then Memory (peer_cell m) (parent_cell m) (Some v) (WriteRelpath v :: writes m)
  else m.

(** ** inode_search_nofollow, inode_linktarget, inode_search *)

(** The local variables of inode_search_nofollow when its loop is left. *)
Record walk := Walk {
  w_name : string;
  w_node : ptr;
  w_left : ptr;
  w_above : ptr
}.

(** [name = *path + 1]: the byte under the cursor is skipped, whatever it is.
    A cursor at the terminator would leave the string. *)
Definition skip_leading (path : string) : outcome string :=
  match path with
  | EmptyString => Fault
  | String _ name => Done name
  end.

(** The code after the loop of inode_search_nofollow: the node returned, the
    new value of [*path] and the memory. *)
Definition search_epilogue (peer parent : bool) (w : walk) (m : memory)
  : ptr * string * memory :=
  (w_node w, w_name w, store_parent parent (w_above w) (store_peer peer (w_left w) m)).

Section Resolver.

Variable pf : platform.
Variable fs : filesystem.

(** Reading the inode a non-null pointer points to. *)
Definition load (a : addr) : outcome inode :=
  match inodes fs !! a with
  | Some node => Done node
  | None => Fault
  end.

(** [++count] on an [unsigned int]. *)
Definition incr_count (count : Z) : Z :=
  if count =? UINT_MAX pf then 0 else count + 1.

(** [search_loop] is the [while (node != NULL)] loop of inode_search_nofollow
    and [linktarget_loop] the [while] loop of inode_linktarget; the call of
    inode_search_nofollow inside the latter is its prologue, [search_loop] and
    [search_epilogue]. *)
Fixpoint search_loop (fuel : nat) (name : string) (node left above : ptr)
    (relpath : bool) (m : memory) {struct fuel} : outcome (walk * memory) :=
  match fuel with
  | O => OutOfFuel
  | S fuel =>
    match node with
    | None => Done (Walk name None left above, m)
    | Some a =>
      n ← load a;
      let result := _inode_compare pf (Some name) n in
      if result <? 0 then
        (* node = NULL; break *)
        Done (Walk name None left above, m)
      else if result >? 0 then
        (* left = node; node = node->i_peer *)
        search_loop fuel name (i_peer n) (Some a) above relpath m
      else
        let name := inode_nextname name in
        if is_nul (deref name) || INODE_IS_MOUNTPT n then
          Done (Walk name (Some a) left above, store_relpath relpath name m)
        else
          '(newnode, m) ← linktarget_loop fuel (Some a) 0 false false relpath m;
          match newnode with
          | None =>
              (* break, with node still the inode that matched *)
              Done (Walk name (Some a) left above, m)
          | Some b =>
              if bool_decide (b ≠ a) then
                (* node = newnode *)
                n' ← load b;
                if INODE_IS_MOUNTPT n' then
                  (* above = NULL; left = NULL; break *)
                  Done (Walk name (Some b) None None, store_relpath relpath name m)
                else
                  (* above = node; left = NULL; node = node->i_child *)
                  search_loop fuel name (i_child n') None (Some b) relpath m
              else
                search_loop fuel name (i_child n) None (Some a) relpath m
          end
    end
  end
with linktarget_loop (fuel : nat) (node : ptr) (count : Z)
    (peer parent relpath : bool) (m : memory) {struct fuel} : outcome (ptr * memory) :=
  match fuel with
  | O => OutOfFuel
  | S fuel =>
    match node with
    | None => Done (None, m)
    | Some a =>
      n ← load a;
      match i_kind n with
      | Softlink link =>
          (* copy = node->u.i_link;
             node = inode_search_nofollow(&copy, peer, parent, relpath) *)
          name ← skip_leading link;
          '(w, m) ← search_loop fuel name (g_root_inode fs) None None relpath m;
          let '(node, _, m) := search_epilogue peer parent w m in
          match node with
          | None =>
              let count := incr_count count in
              if count >? SYMLOOP_MAX pf then Done (None, m)
              else linktarget_loop fuel node count peer parent relpath m
          | Some _ => linktarget_loop fuel node count peer parent relpath m
          end
      | _ => Done (node, m)
      end
    end
  end.

(** The result of a walker: the node returned, the cursor [*path] the call
    leaves behind, and the caller's memory. *)
Definition inode_search_nofollow (fuel : nat) (path : string)
    (peer parent relpath : bool) (m : memory) : outcome (ptr * string * memory) :=
  name ← skip_leading path;
  '(w, m) ← search_loop fuel name (g_root_inode fs) None None relpath m;
  mret (search_epilogue peer parent w m).

Definition inode_linktarget (fuel : nat) (node : ptr)
    (peer parent relpath : bool) (m : memory) : outcome (ptr * memory) :=
  linktarget_loop fuel node 0 peer parent relpath m.

Definition inode_search (fuel : nat) (path : string)
    (peer parent relpath : bool) (m : memory) : outcome (ptr * string * memory) :=
  '(node, path, m) ← inode_search_nofollow fuel path peer parent relpath m;
  match node with
  | None => mret (node, path, m)
  | Some a =>
      n ← load a;
      if INODE_IS_SOFTLINK n then
        '(node, m) ← inode_linktarget fuel node peer parent relpath m;
        mret (node, path, m)
      else mret (node, path, m)
  end.

End Resolver.

(** ** pthread_condattr_init *)

Module Pthread.

(** Modelled from the spec: [pthread_condattr_t] (an [int] in pthread.h) and
    the constants OK and EINVAL come from headers that are not among the
    sources.  OK is 0; EINVAL is kept as a parameter of the function. *)
Definition OK : Z := 0.

(** The debug output of [linfo], in the order it is produced. *)
Inductive info :=
  | InfoAttr (attr : option addr)
  | InfoReturning (ret : Z).

(** The memory of condition attribute objects and the debug output. *)
Record state := State {
  objects : gmap addr Z;
  output : list info
}.

Definition linfo (i : info) (s : state) : state :=
  State (objects s) (output s ++ [i]).

Definition pthread_condattr_init (EINVAL : Z) (attr : option addr) (s : state)
  : Z * state :=
  let ret := OK in
  let s := linfo (InfoAttr attr) s in
  let '(ret, s) :=
    match attr with
    | None => (EINVAL, s)
    | Some a => (ret, State (<[a := 0]> (objects s)) (output s))
    end in
  let s := linfo (InfoReturning ret) s in
  (ret, s).

End Pthread.

(** ** Vocabulary of the properties *)

(** A segment: bytes none of which is NUL or the delimiter. *)
Fixpoint is_segment (s : string) : bool :=
  match s with
  | EmptyString => true
  | String c rest => negb (is_nul c) && negb (is_slash c) && is_segment rest
  end.

(** The segment a pointer into a path stands for: the bytes before the first
    NUL or delimiter. *)
Fixpoint segment_of (s : string) : string :=
  match s with
  | EmptyString => EmptyString
  | String c rest =>
      if is_nul c || is_slash c then EmptyString else String c (segment_of rest)
  end.

(** An inode that has only a name. *)
Definition named (kind : inode_kind) (name : string) (peer child : ptr) : inode :=
  Inode peer child kind (Some name).

(** The segments [s1; ...; sk] written as a relative path, each followed by
    a delimiter, in front of [rest]: [s1/.../sk/rest]. *)
Fixpoint join_path (segs : list string) (rest : string) : string :=
  match segs with
  | [] => rest
  | s :: segs => s +:+ String SLASH (join_path segs rest)
  end.

(** Every inode has a name, and the name is a segment. *)
Definition names_are_segments (fs : filesystem) : Prop :=
  forall a n, inodes fs !! a = Some n ->
    exists s, i_name n = Some s /\ is_segment s = true.

(** Every inode has a name, and the name is not empty. *)
Definition names_not_empty (fs : filesystem) : Prop :=
  forall a n, inodes fs !! a = Some n ->
    exists c s, i_name n = Some (String c s) /\ is_nul c = false.

(** Sibling ordering: the name of an inode compares below its peer. *)
Definition sibling_ordered (pf : platform) (fs : filesystem) : Prop :=
  forall a n p, inodes fs !! a = Some n -> i_peer n = Some p ->
    exists n', inodes fs !! p = Some n' /\ _inode_compare pf (i_name n) n' < 0.

(** No pointer of the tree, the root included, points outside the inodes. *)
Definition closed (fs : filesystem) : Prop :=
  (forall r, g_root_inode fs = Some r -> is_Some (inodes fs !! r)) /\
  (forall a n p, inodes fs !! a = Some n ->
     i_peer n = Some p \/ i_child n = Some p -> is_Some (inodes fs !! p)).

(** The peer and child pointers form no cycle: they descend along a rank. *)
Definition ranked (fs : filesystem) (rank : addr -> nat) : Prop :=
  forall a n p, inodes fs !! a = Some n ->
    i_peer n = Some p \/ i_child n = Some p -> (rank p < rank a)%nat.

Definition no_softlinks (fs : filesystem) : Prop :=
  forall a n, inodes fs !! a = Some n -> INODE_IS_SOFTLINK n = false.

Definition no_mountpoints (fs : filesystem) : Prop :=
  forall a n, inodes fs !! a = Some n -> INODE_IS_MOUNTPT n = false.

(** [peer_chain fs start a]: inode [a] is on the sibling list that starts at
    [start]. *)
Inductive peer_chain (fs : filesystem) : ptr -> addr -> Prop :=
  | chain_here a : peer_chain fs (Some a) a
  | chain_next a n b :
      inodes fs !! a = Some n ->
      peer_chain fs (i_peer n) b ->
      peer_chain fs (Some a) b.

(** [resolves fs start segs a]: matching the segments one level after the
    other, from the sibling list at [start], leads to inode [a]; the inodes
    passed on the way are ordinary ones, so every step down is a step to a
    child and none a jump through a softlink. *)
Inductive resolves (fs : filesystem) : ptr -> list string -> addr -> Prop :=
  | resolves_last start s a n :
      peer_chain fs start a ->
      inodes fs !! a = Some n ->
      i_name n = Some s ->
      resolves fs start [s] a
  | resolves_step start s segs a n b :
      peer_chain fs start a ->
      inodes fs !! a = Some n ->
      i_name n = Some s ->
      i_kind n = Ordinary ->
      resolves fs (i_child n) segs b ->
      resolves fs start (s :: segs) b.

(** The first test of the loop condition [node != NULL] of
    inode_search_nofollow, where [node] is [g_root_inode]: the loop body is
    run at least once exactly when it holds. *)
Definition enters_loop (fs : filesystem) : bool :=
  match g_root_inode fs with
  | Some _ => true
  | None => false
  end.

(** A result reached with some fuel is reached with one unit more. *)
Definition search_loop_mono_at (pf : platform) (fs : filesystem) (fuel : nat) : Prop :=
  forall name node left above relpath m r,
    search_loop pf fs fuel name node left above relpath m = Done r ->
    search_loop pf fs (S fuel) name node left above relpath m = Done r.

Definition linktarget_loop_mono_at (pf : platform) (fs : filesystem) (fuel : nat) : Prop :=
  forall node count peer parent relpath m r,
    linktarget_loop pf fs fuel node count peer parent relpath m = Done r ->
    linktarget_loop pf fs (S fuel) node count peer parent relpath m = Done r.

(** ** Example trees *)

Module Trees.

Local Open Scope string_scope.
Local Open Scope positive_scope.

(** A platform with signed [char], one with unsigned [char]. *)
Definition signed_char : platform := Platform true 4294967295 8.
Definition unsigned_char : platform := Platform false 4294967295 8.

Definition no_memory : memory := Memory None None None [].

(** T1 of the spec: /bin/ls, /bin/sh, /dev/null and the mountpoint /mnt. *)
Definition T1 : filesystem :=
  Filesystem
    (list_to_map
       [ (1, named Ordinary "bin" (Some 2) (Some 4));
         (2, named Ordinary "dev" (Some 3) (Some 6));
         (3, named Mountpoint "mnt" None None);
         (4, named Ordinary "ls" (Some 5) None);
         (5, named Ordinary "sh" None None);
         (6, named Ordinary "null" None None) ])
    (Some 1).

(** T2 of the spec: /etc/conf is a softlink to /real/conf. *)
Definition T2 : filesystem :=
  Filesystem
    (list_to_map
       [ (1, named Ordinary "etc" (Some 2) (Some 3));
         (2, named Ordinary "real" None (Some 4));
         (3, named (Softlink "/real/conf") "conf" None None);
         (4, named Ordinary "conf" None None) ])
    (Some 1).

(** T2 with a mountpoint for /real/conf. *)
Definition T2_mounted : filesystem :=
  Filesystem
    (list_to_map
       [ (1, named Ordinary "etc" (Some 2) (Some 3));
         (2, named Ordinary "real" None (Some 4));
         (3, named (Softlink "/real/conf") "conf" None None);
         (4, named Mountpoint "conf" None None) ])
    (Some 1).

(** The node, cursor and out-parameters a call returns with, all three
    out-parameters supplied. *)
Definition returned (c : outcome (ptr * string * memory))
  : option (ptr * string * ptr * ptr * option string) :=
  match c with
  | Done (node, path, m) =>
      Some (node, path, peer_cell m, parent_cell m, relpath_cell m)
  | _ => None
  end.

(** T3 of the spec: /a is a softlink to /b and /b a softlink to /a. *)
Definition node_a : inode := named (Softlink "/b") "a" (Some 2) None.
Definition node_b : inode := named (Softlink "/a") "b" None None.
Definition T3 : filesystem :=
  Filesystem (<[1 := node_a]> (<[2 := node_b]> ∅)) (Some 1).

(** T1 without its mountpoint: /bin/ls, /bin/sh and /dev/null. *)
Definition plain : filesystem :=
  Filesystem
    (list_to_map
       [ (1, named Ordinary "bin" (Some 2) (Some 4));
         (2, named Ordinary "dev" None (Some 6));
         (4, named Ordinary "ls" (Some 5) None);
         (5, named Ordinary "sh" None None);
         (6, named Ordinary "null" None None) ])
    (Some 1).

(** Addresses grow along the pointers of [plain]. *)
Definition plain_rank (a : addr) : nat := 10 - Pos.to_nat a.

(** The byte 0xC8. *)
Definition high_byte : ascii := "200"%char.

(** A tree with the single file /a. *)
Definition single : filesystem :=
  Filesystem {[ 1 := named Ordinary "a" None None ]} (Some 1).

(** A call of either walker with twenty units of fuel. *)
Definition run (fs : filesystem) (path : string) :=
  returned (inode_search signed_char fs 20 path true true true no_memory).

Definition run_nofollow (fs : filesystem) (path : string) :=
  returned (inode_search_nofollow signed_char fs 20 path true true true no_memory).

End Trees.

(** ** Vocabulary of the further properties *)

(** The C string a name pointer stands for: the bytes before the first NUL. *)
Fixpoint until_nul (s : string) : string :=
  match s with
  | EmptyString => EmptyString
  | String c rest => if is_nul c then EmptyString else String c (until_nul rest)
  end.

(** Every byte is below 0x80. *)
Fixpoint is_ascii (s : string) : bool :=
  match s with
  | EmptyString => true
  | String c rest => (byte_value c <? 128) && is_ascii rest
  end.

(** The segments [s1; ...; sk] written with a delimiter between them:
    [s1/.../sk]. *)
Fixpoint path_of (segs : list string) : string :=
  match segs with
  | [] => EmptyString
  | s :: segs' =>
      match segs' with
      | [] => s
      | _ :: _ => s +:+ String SLASH (path_of segs')
      end
  end.

(** The inode at [next], if there is one, has a name above the segment under
    [cursor]. *)
Definition sorts_before (pf : platform) (fs : filesystem) (cursor : string)
    (next : ptr) : Prop :=
  match next with
  | None => True
  | Some a =>
      exists n, inodes fs !! a = Some n /\ _inode_compare pf (Some cursor) n < 0
  end.

(** Where an inode named by the segment under [cursor] would be linked in:
    behind [left], whose name is below the segment and whose peer, if any, is
    above it; or, with no [left], in front of the children of [above], or of
    the root list when there is no [above] either. *)
Definition insertion_point (pf : platform) (fs : filesystem) (cursor : string)
    (left above : ptr) : Prop :=
  match left with
  | Some p =>
      exists np, inodes fs !! p = Some np /\
        0 < _inode_compare pf (Some cursor) np /\
        sorts_before pf fs cursor (i_peer np)
  | None =>
      match above with
      | Some q =>
          exists nq, inodes fs !! q = Some nq /\
            sorts_before pf fs cursor (i_child nq)
      | None => sorts_before pf fs cursor (g_root_inode fs)
      end
  end.

(** The head of the sibling list below [above]: its first child, or the
    root inode when there is no [above]. *)
Definition level_start (fs : filesystem) (above : ptr) : ptr :=
  match above with
  | Some q =>
      match inodes fs !! q with
      | Some nq => i_child nq
      | None => None
      end
  | None => g_root_inode fs
  end.

(** The relation between the local variables of inode_search_nofollow at the
    head of its loop: [node] is the peer of [left], an inode of the sibling
    list below [above] whose name is below the segment under [name]; or else
    [node] is the head of that list. *)
Definition walk_invariant (pf : platform) (fs : filesystem) (name : string)
    (node left above : ptr) : Prop :=
  match left with
  | Some p =>
      peer_chain fs (level_start fs above) p /\
      exists np, inodes fs !! p = Some np /\
        0 < _inode_compare pf (Some name) np /\ i_peer np = node
  | None =>
      match above with
      | Some q => exists nq, inodes fs !! q = Some nq /\ i_child nq = node
      | None => node = g_root_inode fs
      end
  end.

(** No inode of the sibling list below [above] is named by the segment under
    [cursor]. *)
Definition absent_below (fs : filesystem) (cursor : string) (above : ptr) : Prop :=
  forall b nb s,
    peer_chain fs (level_start fs above) b ->
    inodes fs !! b = Some nb -> i_name nb = Some s ->
    s <> segment_of cursor.

(** A call of a walker returns [r], given enough fuel. *)
Definition returns {A : Type} (call : nat -> outcome A) (r : A) : Prop :=
  exists fuel, call fuel = Done r.

(** Changing SYMLOOP_MAX or the width of [unsigned int], and the count the
    link resolver starts from, costs at most one unit of fuel. *)
Definition search_loop_any_limit (pf pf' : platform) (fs : filesystem)
    (fuel : nat) : Prop :=
  forall name node left above relpath m r,
    search_loop pf fs fuel name node left above relpath m = Done r ->
    search_loop pf' fs (S fuel) name node left above relpath m = Done r.

Definition linktarget_loop_any_limit (pf pf' : platform) (fs : filesystem)
    (fuel : nat) : Prop :=
  forall node count count' peer parent relpath m r,
    linktarget_loop pf fs fuel node count peer parent relpath m = Done r ->
    linktarget_loop pf' fs (S fuel) node count' peer parent relpath m = Done r.

Module MoreTrees.

Local Open Scope string_scope.
Local Open Scope positive_scope.

(** T2 with the target of the softlink /etc/conf missing. *)
Definition T2_broken : filesystem :=
  Filesystem
    (list_to_map
       [ (1, named Ordinary "etc" (Some 2) (Some 3));
         (2, named Ordinary "real" None None);
         (3, named (Softlink "/real/conf") "conf" None None) ])
    (Some 1).

(** T1 with /usr, a softlink to /bin. *)
Definition T1_linked : filesystem :=
  Filesystem
    (list_to_map
       [ (1, named Ordinary "bin" (Some 2) (Some 4));
         (2, named Ordinary "dev" (Some 3) (Some 6));
         (3, named Mountpoint "mnt" (Some 7) None);
         (4, named Ordinary "ls" (Some 5) None);
         (5, named Ordinary "sh" None None);
         (6, named Ordinary "null" None None);
         (7, named (Softlink "/bin") "usr" None None) ])
    (Some 1).

(** A platform with a 16-bit [unsigned int] and SYMLOOP_MAX 0. *)
Definition small_limits : platform := Platform true 65535 0.

End MoreTrees.

(** * Properties *)

(** ** Bytes and segments *)

Lemma is_nul_NUL : is_nul NUL = true.
Proof. reflexivity. Qed.

Lemma is_nul_true c : is_nul c = true -> c = NUL.
Proof. unfold is_nul. apply Ascii.eqb_eq. Qed.

Lemma is_slash_true c : is_slash c = true -> c = SLASH.
Proof. unfold is_slash. apply Ascii.eqb_eq. Qed.

Lemma byte_value_range c : 0 <= byte_value c < 256.
Proof.
  unfold byte_value. pose proof (N_ascii_bounded c). lia.
Qed.

Lemma byte_value_inj c d : byte_value c = byte_value d -> c = d.
Proof.
  unfold byte_value. intros H.
  rewrite <- (ascii_N_embedding c), <- (ascii_N_embedding d).
  f_equal. lia.
Qed.

Lemma char_value_unsigned pf c :
  char_is_signed pf = false -> char_value pf c = byte_value c.
Proof. unfold char_value, byte_value. now intros ->. Qed.

Lemma char_value_ascii pf c :
  byte_value c < 128 -> char_value pf c = byte_value c.
Proof.
  unfold char_value, byte_value. intros H.
  destruct (Z.leb_spec 128 (Z.of_N (N_of_ascii c))); [lia |].
  now rewrite andb_false_r.
Qed.

Lemma char_value_signed_high pf c :
  char_is_signed pf = true -> 128 <= byte_value c ->
  char_value pf c = byte_value c - 256.
Proof.
  unfold char_value, byte_value. intros -> H.
  destruct (Z.leb_spec 128 (Z.of_N (N_of_ascii c))); [reflexivity | lia].
Qed.

Lemma char_value_inj pf c d : char_value pf c = char_value pf d -> c = d.
Proof.
  intros H. apply byte_value_inj.
  pose proof (byte_value_range c). pose proof (byte_value_range d).
  unfold char_value in H. fold (byte_value c) in H. fold (byte_value d) in H.
  destruct (char_is_signed pf); simpl in H; [| exact H].
  destruct (Z.leb_spec 128 (byte_value c)), (Z.leb_spec 128 (byte_value d)); lia.
Qed.

Lemma append_empty (t : string) : (EmptyString +:+ t) = t.
Proof. reflexivity. Qed.

Lemma append_cons c (s t : string) :
  (String c s +:+ t) = String c (s +:+ t).
Proof. reflexivity. Qed.

Lemma append_empty_r (s : string) : s +:+ EmptyString = s.
Proof.
  induction s as [| c s IH]; [reflexivity |]. rewrite append_cons. now f_equal.
Qed.

Lemma at_segment_end_empty : at_segment_end EmptyString = true.
Proof. reflexivity. Qed.

Lemma at_segment_end_cons c s :
  at_segment_end (String c s) = is_nul c || is_slash c.
Proof. reflexivity. Qed.

Lemma is_segment_cons c s :
  is_segment (String c s) = true ->
  is_nul c = false /\ is_slash c = false /\ is_segment s = true.
Proof.
  simpl. rewrite !andb_true_iff, !negb_true_iff. tauto.
Qed.

Lemma segment_of_is_segment s : is_segment (segment_of s) = true.
Proof.
  induction s as [| c s IH]; simpl; [reflexivity |].
  destruct (is_nul c) eqn:Hn; simpl; [reflexivity |].
  destruct (is_slash c) eqn:Hs; simpl; [reflexivity |].
  now rewrite Hn, Hs.
Qed.

Lemma segment_of_segment s : is_segment s = true -> segment_of s = s.
Proof.
  induction s as [| c s IH]; simpl; [reflexivity |].
  intros H. apply is_segment_cons in H as (Hn & Hs & Hr).
  now rewrite Hn, Hs, IH.
Qed.

(** Every string is its segment followed by a tail that starts with a
    terminator. *)
Lemma segment_of_split s :
  exists tail, s = (segment_of s +:+ tail) /\ at_segment_end tail = true.
Proof.
  induction s as [| c s (tail & Heq & Hend)]; simpl.
  - now exists EmptyString.
  - destruct (is_nul c || is_slash c) eqn:Hc.
    + exists (String c s). split; [reflexivity |]. now rewrite at_segment_end_cons.
    + exists tail. split; [| exact Hend]. rewrite Heq at 1. reflexivity.
Qed.

(** Facts about the bytes of a segment, taken from the hypotheses. *)
Ltac segment_facts :=
  repeat match goal with
  | H : is_segment (String _ _) = true |- _ =>
      apply is_segment_cons in H as (? & ? & ?)
  end.

Ltac use_segment_facts :=
  repeat match goal with
  | H : is_nul _ = false |- _ => rewrite !H
  | H : is_slash _ = false |- _ => rewrite !H
  end.

(** ** The comparator on segments *)

Section Compare.

Variable pf : platform.

Lemma compare_loop_range fname nname :
  compare_loop pf fname nname = -1 \/ compare_loop pf fname nname = 0 \/
  compare_loop pf fname nname = 1.
Proof.
  revert fname. induction nname as [| cn nname IH]; intros fname; simpl.
  - destruct (at_segment_end fname); auto.
  - destruct (is_nul cn); [destruct (at_segment_end fname); auto |].
    destruct (at_segment_end fname); [auto |].
    destruct (_ >? _); [auto |]. destruct (_ <? _); [auto |]. apply IH.
Qed.

(** What follows the segment of the path does not matter. *)
Lemma compare_loop_tail s tail nname :
  is_segment s = true -> at_segment_end tail = true ->
  compare_loop pf (s +:+ tail) nname = compare_loop pf s nname.
Proof.
  revert nname. induction s as [| c s IH]; intros nname Hs Ht.
  - rewrite append_empty.
    destruct nname as [| cn nname]; simpl; rewrite Ht; reflexivity.
  - apply is_segment_cons in Hs as (Hn & Hsl & Hr). rewrite append_cons.
    destruct nname as [| cn nname]; simpl.
    + rewrite !at_segment_end_cons, Hn, Hsl. reflexivity.
    + rewrite !at_segment_end_cons, Hn, Hsl. simpl.
      destruct (is_nul cn); [reflexivity |].
      destruct (_ >? _); [reflexivity |]. destruct (_ <? _); [reflexivity |].
      now apply IH.
Qed.

Lemma compare_loop_segment_of fname nname :
  compare_loop pf fname nname = compare_loop pf (segment_of fname) nname.
Proof.
  destruct (segment_of_split fname) as (tail & Heq & Hend).
  rewrite Heq at 1. apply compare_loop_tail; [apply segment_of_is_segment | exact Hend].
Qed.

Lemma compare_loop_refl s : is_segment s = true -> compare_loop pf s s = 0.
Proof.
  induction s as [| c s IH]; intros Hs; [reflexivity |].
  apply is_segment_cons in Hs as (Hn & Hsl & Hr). simpl.
  rewrite at_segment_end_cons, Hn, Hsl. simpl.
  rewrite Z.gtb_ltb, !Z.ltb_irrefl. now apply IH.
Qed.

Lemma compare_loop_antisym a b :
  is_segment a = true -> is_segment b = true ->
  compare_loop pf a b = - compare_loop pf b a.
Proof.
  revert b. induction a as [| c a IH]; intros [| d b] Ha Hb.
  - reflexivity.
  - apply is_segment_cons in Hb as (Hn & Hsl & Hr). simpl.
    rewrite at_segment_end_cons, Hn, Hsl. reflexivity.
  - apply is_segment_cons in Ha as (Hn & Hsl & Hr). simpl.
    rewrite at_segment_end_cons, Hn, Hsl. reflexivity.
  - apply is_segment_cons in Ha as (Hn & Hsl & Hr).
    apply is_segment_cons in Hb as (Hn' & Hsl' & Hr'). simpl.
    rewrite !at_segment_end_cons, Hn, Hsl, Hn', Hsl'. simpl.
    rewrite !Z.gtb_ltb.
    destruct (Z.ltb_spec (char_value pf d) (char_value pf c)),
             (Z.ltb_spec (char_value pf c) (char_value pf d));
      try reflexivity; try lia.
    now apply IH.
Qed.

Lemma compare_loop_eq a b :
  is_segment a = true -> is_segment b = true ->
  compare_loop pf a b = 0 -> a = b.
Proof.
  revert b. induction a as [| c a IH]; intros [| d b] Ha Hb.
  - reflexivity.
  - apply is_segment_cons in Hb as (Hn & Hsl & Hr). simpl.
    rewrite Hn. discriminate.
  - apply is_segment_cons in Ha as (Hn & Hsl & Hr). simpl.
    rewrite at_segment_end_cons, Hn, Hsl. discriminate.
  - apply is_segment_cons in Ha as (Hn & Hsl & Hr).
    apply is_segment_cons in Hb as (Hn' & Hsl' & Hr'). simpl.
    rewrite !at_segment_end_cons, Hn, Hsl, Hn'. simpl.
    rewrite !Z.gtb_ltb.
    destruct (Z.ltb_spec (char_value pf d) (char_value pf c)); [discriminate |].
    destruct (Z.ltb_spec (char_value pf c) (char_value pf d)); [discriminate |].
    intros H1. f_equal; [apply (char_value_inj pf); lia | now apply IH].
Qed.

Lemma compare_loop_trans a b c :
  is_segment a = true -> is_segment b = true -> is_segment c = true ->
  compare_loop pf a b = -1 -> compare_loop pf b c = -1 ->
  compare_loop pf a c = -1.
Proof.
  revert b c.
  induction a as [| x a IH]; intros [| y b] [| z c] Ha Hb Hc;
    segment_facts; simpl; rewrite ?at_segment_end_cons;
    use_segment_facts; simpl; try discriminate; try (intros; reflexivity).
  rewrite !Z.gtb_ltb.
  destruct (Z.ltb_spec (char_value pf y) (char_value pf x)); [discriminate |].
  destruct (Z.ltb_spec (char_value pf z) (char_value pf y)); [discriminate |].
  destruct (Z.ltb_spec (char_value pf z) (char_value pf x)); [lia |].
  destruct (Z.ltb_spec (char_value pf x) (char_value pf y)).
  - destruct (Z.ltb_spec (char_value pf x) (char_value pf z)); [reflexivity | lia].
  - destruct (Z.ltb_spec (char_value pf y) (char_value pf z)).
    + destruct (Z.ltb_spec (char_value pf x) (char_value pf z)); [reflexivity | lia].
    + destruct (Z.ltb_spec (char_value pf x) (char_value pf z)); [reflexivity |].
      now apply IH.
Qed.

End Compare.

Lemma compare_loop_common pf common fname nname :
  is_segment common = true ->
  compare_loop pf (common +:+ fname) (common +:+ nname) = compare_loop pf fname nname.
Proof.
  induction common as [| c common IH]; intros Hs; [reflexivity |].
  segment_facts. rewrite !append_cons. simpl.
  rewrite at_segment_end_cons. use_segment_facts. simpl.
  rewrite Z.gtb_ltb, !Z.ltb_irrefl. now apply IH.
Qed.

Lemma compare_loop_at_end pf fname nname :
  is_nul (deref nname) = true ->
  compare_loop pf fname nname = if at_segment_end fname then 0 else 1.
Proof.
  destruct nname as [| cn nname]; simpl; [reflexivity |]. now intros ->.
Qed.

Lemma compare_loop_not_at_end pf fname nname :
  is_nul (deref nname) = false -> at_segment_end fname = true ->
  compare_loop pf fname nname = -1.
Proof.
  destruct nname as [| cn nname]; simpl; [discriminate |]. now intros -> ->.
Qed.

Lemma compare_loop_differ pf cf fname cn nname :
  is_nul cn = false -> is_nul cf = false -> is_slash cf = false -> cf <> cn ->
  compare_loop pf (String cf fname) (String cn nname) =
  if char_value pf cf <? char_value pf cn then -1 else 1.
Proof.
  intros Hn Hf Hs Hne. simpl. rewrite at_segment_end_cons, Hn, Hf, Hs. simpl.
  rewrite Z.gtb_ltb.
  destruct (Z.ltb_spec (char_value pf cn) (char_value pf cf)),
           (Z.ltb_spec (char_value pf cf) (char_value pf cn));
    try reflexivity; try lia.
  exfalso. apply Hne, (char_value_inj pf). lia.
Qed.

(** ** The segment scanner *)

Lemma skip_segment_app seg tail :
  is_segment seg = true -> at_segment_end tail = true ->
  skip_segment (seg +:+ tail) = tail.
Proof.
  intros Hs Ht. induction seg as [| c seg IH].
  - rewrite append_empty. destruct tail as [| t tail]; [reflexivity |].
    rewrite at_segment_end_cons in Ht. simpl.
    destruct (is_nul t), (is_slash t); try reflexivity; discriminate.
  - segment_facts. rewrite append_cons. simpl. use_segment_facts. simpl. auto.
Qed.

Lemma inode_nextname_app seg tail :
  is_segment seg = true -> at_segment_end tail = true ->
  inode_nextname (seg +:+ tail) =
  if is_nul (deref tail) then tail else advance tail.
Proof.
  intros Hs Ht. unfold inode_nextname. rewrite skip_segment_app by assumption.
  now destruct (is_nul (deref tail)).
Qed.

Lemma inode_nextname_slash seg rest :
  is_segment seg = true ->
  inode_nextname (seg +:+ String SLASH rest) = rest.
Proof.
  intros Hs. now rewrite inode_nextname_app.
Qed.

(** ** The comparator and the scanner *)

(** C4.  _inode_compare returns +1 when the node has no name, and -1 when
    the node has a name and the segment pointer is NULL.  Otherwise, after a
    common run of bytes that end neither string: 0 when the node name is at
    its NUL and the segment at a NUL or a delimiter, +1 when only the node
    name has ended, -1 when only the segment has ended. *)
Theorem inode_compare_ends (pf : platform) :
  (forall fname peer child kind,
     _inode_compare pf fname (Inode peer child kind None) = 1) /\
  (forall peer child kind nname,
     _inode_compare pf None (Inode peer child kind (Some nname)) = -1) /\
  (forall common fname nname peer child kind,
     is_segment common = true ->
     let r := _inode_compare pf (Some (common +:+ fname))
                (Inode peer child kind (Some (common +:+ nname))) in
     (is_nul (deref nname) = true -> at_segment_end fname = true -> r = 0) /\
     (is_nul (deref nname) = true -> at_segment_end fname = false -> r = 1) /\
     (is_nul (deref nname) = false -> at_segment_end fname = true -> r = -1)).
Proof.
  split; [reflexivity |]. split; [reflexivity |].
  intros common fname nname peer child kind Hc r. subst r.
  unfold _inode_compare. simpl. rewrite compare_loop_common by assumption.
  repeat split.
  - intros Hn Hf. now rewrite compare_loop_at_end, Hf.
  - intros Hn Hf. now rewrite compare_loop_at_end, Hf.
  - intros Hn Hf. now apply compare_loop_not_at_end.
Qed.

(** C2, as the code has it.  Where neither string has ended and the bytes
    differ, _inode_compare compares them as values of the type [char] and
    returns -1 or +1 accordingly.  That is the comparison of the unsigned
    bytes where [char] is unsigned, and on every platform when both bytes are
    below 0x80.  A segment byte of 0x80 or more against an ASCII byte of the
    name gives +1 where [char] is unsigned and -1 where it is signed. *)
Theorem inode_compare_differing_bytes
    (pf : platform) (common : string) (cf : ascii) (fname : string)
    (cn : ascii) (nname : string) (peer child : ptr) (kind : inode_kind) :
  is_segment common = true ->
  is_nul cn = false -> is_nul cf = false -> is_slash cf = false -> cf <> cn ->
  let r := _inode_compare pf (Some (common +:+ String cf fname))
             (Inode peer child kind (Some (common +:+ String cn nname))) in
  r = (if char_value pf cf <? char_value pf cn then -1 else 1) /\
  (char_is_signed pf = false ->
     r = if byte_value cf <? byte_value cn then -1 else 1) /\
  (byte_value cf < 128 -> byte_value cn < 128 ->
     r = if byte_value cf <? byte_value cn then -1 else 1) /\
  (128 <= byte_value cf -> byte_value cn < 128 ->
     r = if char_is_signed pf then -1 else 1).
Proof.
  intros Hc Hn Hf Hs Hne r. subst r. unfold _inode_compare. simpl.
  rewrite compare_loop_common by assumption.
  rewrite compare_loop_differ by assumption.
  repeat split.
  - intros Hu. now rewrite !char_value_unsigned.
  - intros H1 H2. now rewrite !char_value_ascii.
  - intros H1 H2. rewrite (char_value_ascii pf cn) by assumption.
    pose proof (byte_value_range cf). pose proof (byte_value_range cn).
    destruct (char_is_signed pf) eqn:Hsg.
    + rewrite char_value_signed_high by assumption.
      destruct (Z.ltb_spec (byte_value cf - 256) (byte_value cn)); [reflexivity | lia].
    + rewrite char_value_unsigned by assumption.
      destruct (Z.ltb_spec (byte_value cf) (byte_value cn)); [lia | reflexivity].
Qed.

(** C6.  A NUL and a delimiter end a segment alike: _inode_compare sees of
    its first argument only the segment it starts with.  On two strings, each
    taken as the segment it starts with, the comparator is anti-symmetric,
    and the order it induces is transitive. *)
Theorem inode_compare_order (pf : platform) :
  (forall a node,
     _inode_compare pf (Some a) node = _inode_compare pf (Some (segment_of a)) node) /\
  (forall a b ka kb pa pb ca cb,
     _inode_compare pf (Some a) (named kb (segment_of b) pb cb) =
     - _inode_compare pf (Some b) (named ka (segment_of a) pa ca)) /\
  (forall a b c kb kc pb pc cb cc,
     _inode_compare pf (Some a) (named kb (segment_of b) pb cb) < 0 ->
     _inode_compare pf (Some b) (named kc (segment_of c) pc cc) < 0 ->
     _inode_compare pf (Some a) (named kc (segment_of c) pc cc) < 0) /\
  (forall a b c kb kc pb pc cb cc,
     _inode_compare pf (Some a) (named kb (segment_of b) pb cb) <= 0 ->
     _inode_compare pf (Some b) (named kc (segment_of c) pc cc) <= 0 ->
     _inode_compare pf (Some a) (named kc (segment_of c) pc cc) <= 0).
Proof.
  assert (Hseg : forall s, is_segment (segment_of s) = true)
    by apply segment_of_is_segment.
  assert (Hlt : forall a b c,
    compare_loop pf a (segment_of b) < 0 ->
    compare_loop pf b (segment_of c) < 0 ->
    compare_loop pf a (segment_of c) = -1).
  { intros a b c. rewrite (compare_loop_segment_of pf a (segment_of b)),
      (compare_loop_segment_of pf b), (compare_loop_segment_of pf a (segment_of c)).
    intros H1 H2. apply (compare_loop_trans pf _ (segment_of b)); auto.
    - destruct (compare_loop_range pf (segment_of a) (segment_of b)) as [|[|]]; lia.
    - destruct (compare_loop_range pf (segment_of b) (segment_of c)) as [|[|]]; lia. }
  assert (Heq : forall a b,
    compare_loop pf a (segment_of b) = 0 -> segment_of a = segment_of b).
  { intros a b. rewrite compare_loop_segment_of. apply compare_loop_eq; auto. }
  split; [| split; [| split]].
  - intros a node. unfold _inode_compare.
    destruct (i_name node); [apply compare_loop_segment_of | reflexivity].
  - intros a b ka kb pa pb ca cb. unfold _inode_compare, named. simpl.
    rewrite (compare_loop_segment_of pf a), (compare_loop_segment_of pf b).
    apply compare_loop_antisym; auto.
  - intros a b c kb kc pb pc cb cc. unfold _inode_compare, named. simpl.
    intros H1 H2. rewrite (Hlt a b c); [lia | assumption | assumption].
  - intros a b c kb kc pb pc cb cc. unfold _inode_compare, named. simpl.
    intros H1 H2.
    destruct (Z.eq_dec (compare_loop pf a (segment_of b)) 0) as [E1 | N1].
    + apply Heq in E1.
      rewrite (compare_loop_segment_of pf a), E1, <- compare_loop_segment_of.
      exact H2.
    + destruct (Z.eq_dec (compare_loop pf b (segment_of c)) 0) as [E2 | N2].
      * apply Heq in E2. rewrite <- E2. exact H1.
      * rewrite (Hlt a b c); lia.
Qed.

(** C7.  inode_nextname skips the bytes of the current segment up to the
    NUL or the delimiter that ends it and then, at a delimiter, exactly that
    one delimiter: at the end of the string and at a NUL byte it returns the
    pointer to the NUL, at a delimiter the pointer to the byte after it, where
    the next segment starts.  A second delimiter is left in place.  Every
    string is such a segment followed by its terminator. *)
Theorem inode_nextname_spec :
  (forall seg, is_segment seg = true ->
     inode_nextname seg = EmptyString /\
     (forall rest, inode_nextname (seg +:+ String NUL rest) = String NUL rest) /\
     (forall rest, inode_nextname (seg +:+ String SLASH rest) = rest) /\
     (forall rest, inode_nextname (seg +:+ String SLASH (String SLASH rest)) =
                   String SLASH rest)) /\
  (forall p, exists seg tail,
     p = (seg +:+ tail) /\ is_segment seg = true /\
     at_segment_end tail = true /\
     inode_nextname p = if is_nul (deref tail) then tail else advance tail).
Proof.
  split.
  - intros seg Hs. repeat split.
    + rewrite <- (append_empty_r seg) at 1. now rewrite inode_nextname_app.
    + intros rest. now rewrite inode_nextname_app.
    + intros rest. now apply inode_nextname_slash.
    + intros rest. now apply inode_nextname_slash.
  - intros p. destruct (segment_of_split p) as (tail & Heq & Hend).
    exists (segment_of p), tail. repeat split; try assumption.
    + apply segment_of_is_segment.
    + rewrite Heq at 1. apply inode_nextname_app;
        [apply segment_of_is_segment | assumption].
Qed.

(** ** The walkers, one step at a time *)

Section Walk.

Variable pf : platform.
Variable fs : filesystem.

Lemma bind_Done {A B} (c : outcome A) (k : A -> outcome B) (b : B) :
  c ≫= k = Done b -> exists a, c = Done a /\ k a = Done b.
Proof. destruct c as [a | |]; simpl; [eauto | discriminate | discriminate]. Qed.

Lemma load_Done a n : inodes fs !! a = Some n -> load fs a = Done n.
Proof. unfold load. now intros ->. Qed.

Lemma load_inv a n : load fs a = Done n -> inodes fs !! a = Some n.
Proof. unfold load. destruct (inodes fs !! a); [congruence | discriminate]. Qed.

(** The two loops, unfolded by one iteration. *)
Lemma search_loop_unfold fuel name node left above relpath m :
  search_loop pf fs (S fuel) name node left above relpath m =
  match node with
  | None => Done (Walk name None left above, m)
  | Some a =>
      n ← load fs a;
      let result := _inode_compare pf (Some name) n in
      if result <? 0 then Done (Walk name None left above, m)
      else if result >? 0 then
        search_loop pf fs fuel name (i_peer n) (Some a) above relpath m
      else
        let name := inode_nextname name in
        if is_nul (deref name) || INODE_IS_MOUNTPT n then
          Done (Walk name (Some a) left above, store_relpath relpath name m)
        else
          '(newnode, m) ← linktarget_loop pf fs fuel (Some a) 0 false false relpath m;
          match newnode with
          | None => Done (Walk name (Some a) left above, m)
          | Some b =>
              if bool_decide (b ≠ a) then
                n' ← load fs b;
                if INODE_IS_MOUNTPT n' then
                  Done (Walk name (Some b) None None, store_relpath relpath name m)
                else
                  search_loop pf fs fuel name (i_child n') None (Some b) relpath m
              else
                search_loop pf fs fuel name (i_child n) None (Some a) relpath m
          end
  end.
Proof. reflexivity. Qed.

Lemma linktarget_loop_unfold fuel node count peer parent relpath m :
  linktarget_loop pf fs (S fuel) node count peer parent relpath m =
  match node with
  | None => Done (None, m)
  | Some a =>
      n ← load fs a;
      match i_kind n with
      | Softlink link =>
          '(node, _, m) ← inode_search_nofollow pf fs fuel link peer parent relpath m;
          match node with
          | None =>
              if incr_count pf count >? SYMLOOP_MAX pf then Done (None, m)
              else linktarget_loop pf fs fuel node (incr_count pf count)
                     peer parent relpath m
          | Some _ => linktarget_loop pf fs fuel node count peer parent relpath m
          end
      | _ => Done (node, m)
      end
  end.
Proof.
  destruct node as [a |]; [| reflexivity].
  change (linktarget_loop pf fs (S fuel) (Some a) count peer parent relpath m)
    with (n ← load fs a;
          match i_kind n with
          | Softlink link =>
              name ← skip_leading link;
              '(w, m) ← search_loop pf fs fuel name (g_root_inode fs) None None relpath m;
              let '(node, _, m) := search_epilogue peer parent w m in
              match node with
              | None =>
                  if incr_count pf count >? SYMLOOP_MAX pf then Done (None, m)
                  else linktarget_loop pf fs fuel node (incr_count pf count)
                         peer parent relpath m
              | Some _ => linktarget_loop pf fs fuel node count peer parent relpath m
              end
          | _ => Done (Some a, m)
          end).
  destruct (load fs a) as [n | |]; [| reflexivity | reflexivity].
  cbn [mbind outcome_bind]. destruct (i_kind n) as [| | link]; try reflexivity.
  unfold inode_search_nofollow.
  destruct (skip_leading link) as [name | |]; [| reflexivity | reflexivity].
  cbn [mbind outcome_bind].
  destruct (search_loop pf fs fuel name (g_root_inode fs) None None relpath m)
    as [[w m'] | |]; reflexivity.
Qed.

Lemma search_loop_null fuel name left above relpath m :
  search_loop pf fs (S fuel) name None left above relpath m =
  Done (Walk name None left above, m).
Proof. reflexivity. Qed.

Lemma search_loop_less fuel name a n left above relpath m :
  inodes fs !! a = Some n ->
  _inode_compare pf (Some name) n < 0 ->
  search_loop pf fs (S fuel) name (Some a) left above relpath m =
  Done (Walk name None left above, m).
Proof.
  intros Ha Hc. rewrite search_loop_unfold. rewrite (load_Done _ _ Ha). cbn [mbind outcome_bind].
  destruct (Z.ltb_spec (_inode_compare pf (Some name) n) 0); [reflexivity | lia].
Qed.

Lemma search_loop_greater fuel name a n left above relpath m :
  inodes fs !! a = Some n ->
  0 < _inode_compare pf (Some name) n ->
  search_loop pf fs (S fuel) name (Some a) left above relpath m =
  search_loop pf fs fuel name (i_peer n) (Some a) above relpath m.
Proof.
  intros Ha Hc. rewrite search_loop_unfold. rewrite (load_Done _ _ Ha). cbn [mbind outcome_bind].
  destruct (Z.ltb_spec (_inode_compare pf (Some name) n) 0); [lia |].
  rewrite Z.gtb_ltb.
  destruct (Z.ltb_spec 0 (_inode_compare pf (Some name) n)); [reflexivity | lia].
Qed.

Lemma search_loop_found fuel name a n left above relpath m :
  inodes fs !! a = Some n ->
  _inode_compare pf (Some name) n = 0 ->
  is_nul (deref (inode_nextname name)) || INODE_IS_MOUNTPT n = true ->
  search_loop pf fs (S fuel) name (Some a) left above relpath m =
  Done (Walk (inode_nextname name) (Some a) left above,
        store_relpath relpath (inode_nextname name) m).
Proof.
  intros Ha Hc Hend. rewrite search_loop_unfold. rewrite (load_Done _ _ Ha).
  cbn [mbind outcome_bind]. rewrite Hc. cbn [Z.ltb Z.gtb Z.compare].
  cbv zeta. now rewrite Hend.
Qed.

Lemma linktarget_loop_null fuel count peer parent relpath m :
  linktarget_loop pf fs (S fuel) None count peer parent relpath m = Done (None, m).
Proof. reflexivity. Qed.

Lemma linktarget_loop_plain fuel a n count peer parent relpath m :
  inodes fs !! a = Some n ->
  INODE_IS_SOFTLINK n = false ->
  linktarget_loop pf fs (S fuel) (Some a) count peer parent relpath m =
  Done (Some a, m).
Proof.
  intros Ha Hk. rewrite linktarget_loop_unfold. rewrite (load_Done _ _ Ha).
  cbn [mbind outcome_bind]. unfold INODE_IS_SOFTLINK in Hk.
  destruct (i_kind n); [reflexivity | reflexivity | discriminate].
Qed.

(** A softlink: one iteration of the loop of inode_linktarget is a call of
    inode_search_nofollow on the link target, the cursor it leaves dropped. *)
Lemma linktarget_loop_link fuel a n link count peer parent relpath m :
  inodes fs !! a = Some n ->
  i_kind n = Softlink link ->
  linktarget_loop pf fs (S fuel) (Some a) count peer parent relpath m =
  '(node, _, m) ← inode_search_nofollow pf fs fuel link peer parent relpath m;
  match node with
  | None =>
      if incr_count pf count >? SYMLOOP_MAX pf then Done (None, m)
      else linktarget_loop pf fs fuel node (incr_count pf count) peer parent relpath m
  | Some _ => linktarget_loop pf fs fuel node count peer parent relpath m
  end.
Proof.
  intros Ha Hk. rewrite linktarget_loop_unfold. rewrite (load_Done _ _ Ha).
  cbn [mbind outcome_bind]. now rewrite Hk.
Qed.

(** An inode that matched, is not the end of the path and is neither a
    mountpoint nor a softlink: the walk goes on with its children. *)
Lemma search_loop_descend fuel name a n left above relpath m :
  inodes fs !! a = Some n ->
  _inode_compare pf (Some name) n = 0 ->
  is_nul (deref (inode_nextname name)) = false ->
  i_kind n = Ordinary ->
  search_loop pf fs (S (S fuel)) name (Some a) left above relpath m =
  search_loop pf fs (S fuel) (inode_nextname name) (i_child n) None (Some a) relpath m.
Proof.
  intros Ha Hc Hend Hk.
  assert (Hm : INODE_IS_MOUNTPT n = false) by (unfold INODE_IS_MOUNTPT; now rewrite Hk).
  assert (Hs : INODE_IS_SOFTLINK n = false) by (unfold INODE_IS_SOFTLINK; now rewrite Hk).
  remember (S fuel) as fuel1 eqn:Hfuel.
  rewrite search_loop_unfold. rewrite (load_Done _ _ Ha). cbn [mbind outcome_bind].
  rewrite Hc. cbn [Z.ltb Z.gtb Z.compare]. cbv zeta. rewrite Hend, Hm.
  cbn [orb]. subst fuel1. rewrite (linktarget_loop_plain _ _ _ _ _ _ _ _ Ha Hs).
  cbn [mbind outcome_bind].
  rewrite bool_decide_eq_false_2 by (intros H; now apply H).
  reflexivity.
Qed.

End Walk.

(** ** More fuel does not change a result *)

Section Fuel.

Variable pf : platform.
Variable fs : filesystem.

Lemma inode_search_nofollow_mono_at fuel :
  search_loop_mono_at pf fs fuel ->
  forall path peer parent relpath m r,
    inode_search_nofollow pf fs fuel path peer parent relpath m = Done r ->
    inode_search_nofollow pf fs (S fuel) path peer parent relpath m = Done r.
Proof.
  intros IH path peer parent relpath m r. unfold inode_search_nofollow.
  destruct (skip_leading path) as [name | |]; try discriminate.
  cbn [mbind outcome_bind]. intros H.
  apply bind_Done in H as ([w m'] & H1 & H2).
  now rewrite (IH _ _ _ _ _ _ _ H1).
Qed.

Lemma fuel_mono_step fuel :
  search_loop_mono_at pf fs fuel /\ linktarget_loop_mono_at pf fs fuel.
Proof.
  induction fuel as [| fuel [IHs IHl]].
  { split; intros ? *; discriminate. }
  split.
  - intros name node left above relpath m r H.
    rewrite search_loop_unfold in H. rewrite search_loop_unfold.
    destruct node as [a |]; [| exact H].
    destruct (load fs a) as [n | |]; try discriminate.
    cbn [mbind outcome_bind] in *. cbv zeta in *.
    destruct (_ <? 0); [exact H |].
    destruct (_ >? 0); [now apply IHs |].
    destruct (_ || _); [exact H |].
    apply bind_Done in H as ([newnode m'] & H1 & H2).
    rewrite (IHl _ _ _ _ _ _ _ H1). cbn [mbind outcome_bind].
    destruct newnode as [b |]; [| exact H2].
    destruct (bool_decide (b ≠ a)); [| now apply IHs].
    destruct (load fs b) as [n' | |]; try discriminate.
    cbn [mbind outcome_bind] in *.
    destruct (INODE_IS_MOUNTPT n'); [exact H2 | now apply IHs].
  - intros node count peer parent relpath m r H.
    rewrite linktarget_loop_unfold in H. rewrite linktarget_loop_unfold.
    destruct node as [a |]; [| exact H].
    destruct (load fs a) as [n | |]; try discriminate.
    cbn [mbind outcome_bind] in *.
    destruct (i_kind n) as [| | link]; try exact H.
    apply bind_Done in H as ([[node' path'] m'] & H1 & H2).
    rewrite (inode_search_nofollow_mono_at _ IHs _ _ _ _ _ _ H1).
    cbn [mbind outcome_bind].
    destruct node' as [b |]; [now apply IHl |].
    destruct (_ >? _); [exact H2 | now apply IHl].
Qed.

Lemma search_loop_mono fuel fuel' name node left above relpath m r :
  (fuel <= fuel')%nat ->
  search_loop pf fs fuel name node left above relpath m = Done r ->
  search_loop pf fs fuel' name node left above relpath m = Done r.
Proof.
  induction 1 as [| fuel' Hle IH]; [trivial |].
  intros H. now apply (proj1 (fuel_mono_step fuel')), IH.
Qed.

Lemma linktarget_loop_mono fuel fuel' node count peer parent relpath m r :
  (fuel <= fuel')%nat ->
  linktarget_loop pf fs fuel node count peer parent relpath m = Done r ->
  linktarget_loop pf fs fuel' node count peer parent relpath m = Done r.
Proof.
  induction 1 as [| fuel' Hle IH]; [trivial |].
  intros H. now apply (proj2 (fuel_mono_step fuel')), IH.
Qed.

Lemma inode_search_nofollow_mono fuel fuel' path peer parent relpath m r :
  (fuel <= fuel')%nat ->
  inode_search_nofollow pf fs fuel path peer parent relpath m = Done r ->
  inode_search_nofollow pf fs fuel' path peer parent relpath m = Done r.
Proof.
  induction 1 as [| fuel' Hle IH]; [trivial |].
  intros H.
  now apply inode_search_nofollow_mono_at, IH; [apply fuel_mono_step |].
Qed.

End Fuel.

(** ** The link resolver on an inode that is no softlink *)

(** C9.  For a node that is present and is not a softlink, inode_linktarget
    returns that node and stores nothing through [peer], [parent] or
    [relpath]: the memory, the record of its writes included, is as
    before. *)
Theorem inode_linktarget_identity
    (pf : platform) (fs : filesystem) (fuel : nat) (a : addr) (n : inode)
    (peer parent relpath : bool) (m : memory) :
  inodes fs !! a = Some n ->
  INODE_IS_SOFTLINK n = false ->
  inode_linktarget pf fs (S fuel) (Some a) peer parent relpath m = Done (Some a, m).
Proof.
  intros Ha Hk. unfold inode_linktarget. now apply linktarget_loop_plain with n.
Qed.

(** ** The root path *)

Lemma enters_loop_false pf fs fuel name left above relpath m :
  enters_loop fs = false ->
  search_loop pf fs (S fuel) name (g_root_inode fs) left above relpath m =
  Done (Walk name None left above, m).
Proof.
  unfold enters_loop. destruct (g_root_inode fs); [discriminate | reflexivity].
Qed.

Lemma inode_compare_empty_segment pf n :
  (exists c s, i_name n = Some (String c s) /\ is_nul c = false) ->
  _inode_compare pf (Some EmptyString) n = -1.
Proof.
  intros (c & s & Hn & Hc). unfold _inode_compare. rewrite Hn. simpl. now rewrite Hc.
Qed.

(** C8, as the code has it.  In a tree whose nodes all have non-empty names,
    inode_search_nofollow on the path "/" returns no node: the segment left
    after the leading delimiter is empty, so that with a root inode the loop
    is entered and left at once, the first comparison giving -1, and without
    one the loop is not entered.  [peer] and [parent] receive NULL, the cursor
    is left at the end of the path and [relpath] is not written. *)
Theorem search_nofollow_root
    (pf : platform) (fs : filesystem) (fuel : nat)
    (peer parent relpath : bool) (m : memory) :
  names_not_empty fs ->
  (forall r, g_root_inode fs = Some r -> is_Some (inodes fs !! r)) ->
  inode_search_nofollow pf fs (S fuel) (String SLASH EmptyString) peer parent relpath m =
    Done (None, EmptyString, store_parent parent None (store_peer peer None m)) /\
  (forall r n, g_root_inode fs = Some r -> inodes fs !! r = Some n ->
     _inode_compare pf (Some EmptyString) n = -1).
Proof.
  intros Hne Hroot. split.
  - unfold inode_search_nofollow. cbn [skip_leading mbind outcome_bind].
    destruct (g_root_inode fs) as [r |] eqn:Hr; [| reflexivity].
    destruct (Hroot r eq_refl) as [n Hn].
    rewrite (search_loop_less pf fs fuel _ r n); [reflexivity | assumption |].
    rewrite inode_compare_empty_segment; [lia | eauto].
  - intros r n _ Hn. apply inode_compare_empty_segment; eauto.
Qed.

(** ** Trees without softlinks *)

Section NoSoftlinks.

Variable pf : platform.
Variable fs : filesystem.

(** The node a walk returns has been read. *)
Lemma search_loop_node_loaded fuel :
  forall name node left above relpath m w m' a,
    search_loop pf fs fuel name node left above relpath m = Done (w, m') ->
    w_node w = Some a -> is_Some (inodes fs !! a).
Proof.
  induction fuel as [| fuel IH]; intros name node left above relpath m w m' a H Hw.
  { discriminate. }
  rewrite search_loop_unfold in H.
  destruct node as [c |]; [| injection H as <- _; discriminate].
  destruct (load fs c) as [n | |] eqn:Hc; try discriminate.
  apply load_inv in Hc. cbn [mbind outcome_bind] in H. cbv zeta in H.
  destruct (_ <? 0); [injection H as <- _; discriminate |].
  destruct (_ >? 0); [eapply IH; eauto |].
  destruct (_ || _).
  { injection H as <- _. injection Hw as <-. eauto. }
  apply bind_Done in H as ([newnode m1] & _ & H).
  destruct newnode as [b |].
  2: { injection H as <- _. injection Hw as <-. eauto. }
  destruct (bool_decide (b ≠ c)); [| eapply IH; eauto].
  destruct (load fs b) as [n' | |] eqn:Hb; try discriminate.
  apply load_inv in Hb. cbn [mbind outcome_bind] in H.
  destruct (INODE_IS_MOUNTPT n'); [| eapply IH; eauto].
  injection H as <- _. injection Hw as <-. eauto.
Qed.

Hypothesis Hplain : no_softlinks fs.

Lemma inode_search_plain fuel path peer parent relpath m :
  inode_search pf fs fuel path peer parent relpath m =
  inode_search_nofollow pf fs fuel path peer parent relpath m.
Proof.
  unfold inode_search.
  destruct (inode_search_nofollow pf fs fuel path peer parent relpath m)
    as [[[node path'] m'] | |] eqn:H; [| reflexivity | reflexivity].
  cbn [mbind outcome_bind]. destruct node as [a |]; [| reflexivity].
  unfold inode_search_nofollow in H.
  apply bind_Done in H as (name & _ & H).
  apply bind_Done in H as ([w m1] & Hloop & H).
  injection H as Hn _ _.
  destruct (search_loop_node_loaded _ _ _ _ _ _ _ _ _ a Hloop Hn) as [n Ha].
  rewrite (load_Done _ _ _ Ha). cbn [mbind outcome_bind].
  now rewrite (Hplain a n Ha).
Qed.

Variable rank : addr -> nat.
Hypothesis Hclosed : closed fs.
Hypothesis Hranked : ranked fs rank.

Lemma search_loop_returns k :
  forall fuel name node left above relpath m,
    (forall a, node = Some a -> (rank a < k)%nat /\ is_Some (inodes fs !! a)) ->
    (k < fuel)%nat ->
    exists r, search_loop pf fs fuel name node left above relpath m = Done r.
Proof.
  induction k as [| k IH]; intros fuel name node left above relpath m Hnode Hfuel;
    (destruct fuel as [| fuel]; [lia |]); rewrite search_loop_unfold;
    (destruct node as [a |]; [| eauto]);
    destruct (Hnode a eq_refl) as [Hrank [n Ha]]; [lia |].
  assert (Hnext : forall p, i_peer n = Some p \/ i_child n = Some p ->
            (rank p < k)%nat /\ is_Some (inodes fs !! p)).
  { intros p Hp. split.
    - pose proof (Hranked a n p Ha Hp). lia.
    - exact (proj2 Hclosed a n p Ha Hp). }
  rewrite (load_Done _ _ _ Ha). cbn [mbind outcome_bind]. cbv zeta.
  destruct (_ <? 0); [eauto |].
  destruct (_ >? 0).
  { apply IH; [| lia]. intros p Hp. apply Hnext. now left. }
  destruct (_ || _); [eauto |].
  destruct fuel as [| fuel]; [lia |].
  rewrite (linktarget_loop_plain pf fs fuel a n _ _ _ _ _ Ha (Hplain a n Ha)).
  cbn [mbind outcome_bind].
  rewrite bool_decide_eq_false_2 by (intros H; now apply H).
  apply IH; [| lia]. intros p Hp. apply Hnext. now right.
Qed.

Lemma inode_search_nofollow_returns c path peer parent relpath m :
  exists fuel0, forall fuel, (fuel0 <= fuel)%nat ->
  exists r, inode_search_nofollow pf fs fuel (String c path) peer parent relpath m = Done r.
Proof.
  set (k := match g_root_inode fs with Some r => S (rank r) | None => O end).
  exists (S k). intros fuel Hfuel. unfold inode_search_nofollow.
  cbn [skip_leading mbind outcome_bind].
  destruct (search_loop_returns k fuel path (g_root_inode fs) None None relpath m)
    as [[w m'] Hr]; [| lia |].
  - intros a Ha. subst k. rewrite Ha. split; [lia |]. now apply Hclosed.
  - rewrite Hr. cbn [mbind outcome_bind]. eauto.
Qed.

End NoSoftlinks.

(** C5.  In a tree with no softlink and no mountpoint, inode_search and
    inode_search_nofollow give the same outcome on every path: the same node
    or none, the same cursor and the same memory.  When the tree is closed
    and free of cycles and the path is not the empty string, both calls
    return, with that same result. *)
Theorem search_is_search_nofollow (pf : platform) (fs : filesystem) :
  no_softlinks fs -> no_mountpoints fs ->
  (forall fuel path peer parent relpath m,
     inode_search pf fs fuel path peer parent relpath m =
     inode_search_nofollow pf fs fuel path peer parent relpath m) /\
  (forall rank, closed fs -> ranked fs rank ->
   forall c path peer parent relpath m,
   exists fuel0, forall fuel, (fuel0 <= fuel)%nat ->
   exists r,
     inode_search_nofollow pf fs fuel (String c path) peer parent relpath m = Done r /\
     inode_search pf fs fuel (String c path) peer parent relpath m = Done r).
Proof.
  intros Hs Hm. split.
  - intros. now apply inode_search_plain.
  - intros rank Hc Hr c path peer parent relpath m.
    destruct (inode_search_nofollow_returns pf fs Hs rank Hc Hr c path peer parent relpath m)
      as [fuel0 H].
    exists fuel0. intros fuel Hfuel. destruct (H fuel Hfuel) as [r Hres].
    exists r. split; [exact Hres |]. now rewrite inode_search_plain.
Qed.

(** ** Two softlinks that point at each other *)

Section Cycle.

Import Trees.
Local Open Scope string_scope.

Variable pf : platform.

Lemma T3_at_a : inodes T3 !! 1%positive = Some node_a.
Proof. reflexivity. Qed.

Lemma T3_at_b : inodes T3 !! 2%positive = Some node_b.
Proof. reflexivity. Qed.

Lemma compare_b_a : _inode_compare pf (Some "b") node_a = 1.
Proof. destruct pf as [[|] u s]; reflexivity. Qed.

Lemma compare_a_a : _inode_compare pf (Some "a") node_a = 0.
Proof. destruct pf as [[|] u s]; reflexivity. Qed.

Lemma compare_b_b : _inode_compare pf (Some "b") node_b = 0.
Proof. destruct pf as [[|] u s]; reflexivity. Qed.

(** The walk for "/a" ends on the softlink a, the walk for "/b" on the
    softlink b: the terminal node is not dereferenced. *)
Lemma T3_nofollow_a fuel peer parent relpath m :
  inode_search_nofollow pf T3 fuel "/a" peer parent relpath m = OutOfFuel \/
  exists m', inode_search_nofollow pf T3 fuel "/a" peer parent relpath m =
             Done (Some 1%positive, "", m').
Proof.
  unfold inode_search_nofollow. cbn [skip_leading mbind outcome_bind g_root_inode T3].
  destruct fuel as [| fuel]; [now left | right].
  rewrite (search_loop_found pf T3 fuel "a" _ _ _ _ _ _ T3_at_a compare_a_a eq_refl).
  cbn [mbind outcome_bind]. eexists. reflexivity.
Qed.

Lemma T3_nofollow_b fuel peer parent relpath m :
  inode_search_nofollow pf T3 fuel "/b" peer parent relpath m = OutOfFuel \/
  exists m', inode_search_nofollow pf T3 fuel "/b" peer parent relpath m =
             Done (Some 2%positive, "", m').
Proof.
  unfold inode_search_nofollow. cbn [skip_leading mbind outcome_bind g_root_inode T3].
  destruct fuel as [| fuel]; [now left |].
  rewrite (search_loop_greater pf T3 fuel "b" _ _ _ _ _ _ T3_at_a)
    by (rewrite compare_b_a; lia).
  destruct fuel as [| fuel]; [now left | right].
  change (i_peer node_a) with (Some 2%positive).
  rewrite (search_loop_found pf T3 fuel "b" _ _ _ _ _ _ T3_at_b compare_b_b eq_refl).
  cbn [mbind outcome_bind]. eexists. reflexivity.
Qed.

(** The loop of inode_linktarget, started on either softlink, is always at a
    softlink again after an iteration: no fuel is enough for it. *)
Lemma T3_linktarget_loop fuel :
  forall a count peer parent relpath m,
    a = 1%positive \/ a = 2%positive ->
    linktarget_loop pf T3 fuel (Some a) count peer parent relpath m = OutOfFuel.
Proof.
  induction fuel as [| fuel IH]; intros a count peer parent relpath m Ha;
    [reflexivity |].
  destruct Ha as [-> | ->].
  - rewrite (linktarget_loop_link pf T3 fuel _ _ "/b" _ _ _ _ _ T3_at_a eq_refl).
    destruct (T3_nofollow_b fuel peer parent relpath m) as [-> | [m' ->]];
      [reflexivity |].
    cbn [mbind outcome_bind]. apply IH. now right.
  - rewrite (linktarget_loop_link pf T3 fuel _ _ "/a" _ _ _ _ _ T3_at_b eq_refl).
    destruct (T3_nofollow_a fuel peer parent relpath m) as [-> | [m' ->]];
      [reflexivity |].
    cbn [mbind outcome_bind]. apply IH. now left.
Qed.

End Cycle.

(** C1, the code on the tree T3.  With the softlink a to "/b" and the
    softlink b to "/a", inode_linktarget on the node a and inode_search on
    "/a" do not return: whatever the fuel, the call is still running when
    the fuel is spent.  The count of inode_linktarget never moves, since
    every look-up of a link target finds a node. *)
Theorem cyclic_softlinks_never_return
    (pf : platform) (fuel : nat) (peer parent relpath : bool) (m : memory) :
  inode_linktarget pf Trees.T3 fuel (Some 1%positive) peer parent relpath m = OutOfFuel /\
  inode_search pf Trees.T3 fuel (String SLASH (String "a" EmptyString))
    peer parent relpath m = OutOfFuel.
Proof.
  split.
  - apply T3_linktarget_loop. now left.
  - unfold inode_search.
    destruct (T3_nofollow_a pf fuel peer parent relpath m) as [H | [m' H]];
      unfold SLASH; rewrite H; [reflexivity |].
    cbn [mbind outcome_bind]. rewrite (load_Done _ _ _ T3_at_a).
    cbn [mbind outcome_bind]. change (INODE_IS_SOFTLINK Trees.node_a) with true.
    cbv iota. unfold inode_linktarget.
    rewrite T3_linktarget_loop; [reflexivity | now left].
Qed.

(** ** Walking a sorted tree *)

Section Sorted.

Variable pf : platform.
Variable fs : filesystem.
Hypothesis Hnames : names_are_segments fs.
Hypothesis Hsorted : sibling_ordered pf fs.

Lemma compare_names_lt n n' s s' :
  i_name n = Some s -> i_name n' = Some s' ->
  _inode_compare pf (i_name n) n' < 0 -> compare_loop pf s s' = -1.
Proof.
  intros Hn Hn'. unfold _inode_compare. rewrite Hn, Hn'. intros H.
  destruct (compare_loop_range pf s s') as [|[|]]; lia.
Qed.

(** Every inode further along a sibling list has a greater name. *)
Lemma peer_chain_sorted start b :
  peer_chain fs start b ->
  forall a n nb, inodes fs !! a = Some n -> i_peer n = start ->
    inodes fs !! b = Some nb ->
    _inode_compare pf (i_name n) nb < 0.
Proof.
  induction 1 as [b | a' n' b Ha' Hchain IH]; intros a n nb Ha Hp Hb.
  - destruct (Hsorted a n b Ha Hp) as (nb' & Hb' & Hlt). congruence.
  - destruct (Hsorted a n a' Ha Hp) as (n'' & Ha'' & Hlt).
    assert (n'' = n') by congruence. subst n''.
    specialize (IH a' n' nb Ha' eq_refl Hb).
    destruct (Hnames a n Ha) as (s & Hs & Hseg).
    destruct (Hnames a' n' Ha') as (s' & Hs' & Hseg').
    destruct (Hnames b nb Hb) as (sb & Hsb & Hsegb).
    pose proof (compare_names_lt _ _ _ _ Hs Hs' Hlt) as H1.
    pose proof (compare_names_lt _ _ _ _ Hs' Hsb IH) as H2.
    unfold _inode_compare. rewrite Hs, Hsb.
    rewrite (compare_loop_trans pf s s' sb); auto; lia.
Qed.

(** The walker passes the siblings in front of the inode whose name is the
    current segment, and arrives at it. *)
Lemma search_loop_along_chain start b :
  peer_chain fs start b ->
  forall nb s tail left above relpath m,
    inodes fs !! b = Some nb -> i_name nb = Some s ->
    at_segment_end tail = true ->
    exists k left', forall fuel,
      search_loop pf fs (k + fuel) (s +:+ tail) start left above relpath m =
      search_loop pf fs fuel (s +:+ tail) (Some b) left' above relpath m.
Proof.
  induction 1 as [b | a n b Ha Hchain IH];
    intros nb s tail left above relpath m Hb Hs Ht.
  - exists O, left. reflexivity.
  - destruct (IH nb s tail (Some a) above relpath m Hb Hs Ht) as (k & left' & Hk).
    exists (S k), left'. intros fuel. rewrite <- Hk. cbn [Nat.add].
    apply search_loop_greater with (n := n); [assumption |].
    pose proof (peer_chain_sorted _ _ Hchain a n nb Ha eq_refl Hb) as Hlt.
    destruct (Hnames a n Ha) as (sa & Hsa & Hsega).
    destruct (Hnames b nb Hb) as (sb & Hsb & Hsegb).
    assert (sb = s) by congruence. subst sb.
    pose proof (compare_names_lt _ _ _ _ Hsa Hs Hlt) as H1.
    unfold _inode_compare. rewrite Hsa.
    rewrite compare_loop_tail, compare_loop_antisym by assumption. lia.
Qed.

Lemma inode_compare_own_name n s tail :
  i_name n = Some s -> is_segment s = true -> at_segment_end tail = true ->
  _inode_compare pf (Some (s +:+ tail)) n = 0.
Proof.
  intros Hn Hs Ht. unfold _inode_compare. rewrite Hn.
  rewrite compare_loop_tail by assumption. now apply compare_loop_refl.
Qed.

Lemma resolves_first_segment start segs b :
  resolves fs start segs b ->
  exists s segs', segs = s :: segs' /\ is_segment s = true.
Proof.
  destruct 1 as [start s a n Hc Ha Hs | start s segs a n b Hc Ha Hs Hk Hr];
    destruct (Hnames a n Ha) as (s' & Hs' & Hseg);
    assert (s' = s) by congruence; subst s'; eauto.
Qed.

Lemma join_path_not_at_nul start segs b rest :
  resolves fs start segs b -> is_nul (deref (join_path segs rest)) = false.
Proof.
  intros H. destruct (resolves_first_segment _ _ _ H) as (s & segs' & -> & Hs).
  cbn [join_path]. destruct s as [| c s]; [reflexivity |].
  segment_facts. rewrite append_cons. assumption.
Qed.

(** The walk along segments that resolve to a mountpoint ends there, with
    the rest of the path under the cursor. *)
Lemma search_loop_to_mountpoint start segs b :
  resolves fs start segs b ->
  forall nb rest left above relpath m,
    inodes fs !! b = Some nb -> INODE_IS_MOUNTPT nb = true ->
    exists k left' above', forall fuel,
      search_loop pf fs (k + fuel) (join_path segs rest) start left above relpath m =
      Done (Walk rest (Some b) left' above', store_relpath relpath rest m).
Proof.
  induction 1 as [start s a n Hc Ha Hs | start s segs a n b Hc Ha Hs Hk Hr IH];
    intros nb rest left above relpath m Hb Hm;
    destruct (Hnames a n Ha) as (s' & Hs' & Hseg);
    assert (s' = s) by congruence; subst s'; cbn [join_path].
  - assert (nb = n) by congruence. subst nb.
    destruct (search_loop_along_chain _ _ Hc n s (String SLASH rest)
                left above relpath m Ha Hs eq_refl) as (k & left' & Hk).
    exists (k + 1)%nat, left', above. intros fuel.
    rewrite <- Nat.add_assoc, Hk. cbn [Nat.add].
    rewrite (search_loop_found pf fs fuel _ a n); rewrite ?inode_nextname_slash;
      try assumption; try reflexivity.
    + now apply inode_compare_own_name.
    + now rewrite Hm, orb_true_r.
  - destruct (search_loop_along_chain _ _ Hc n s (String SLASH (join_path segs rest))
                left above relpath m Ha Hs eq_refl) as (k & left' & Hk').
    destruct (IH nb rest None (Some a) relpath m Hb Hm) as (k2 & left2 & above2 & Hk2).
    exists (k + (2 + k2))%nat, left2, above2. intros fuel.
    rewrite <- Nat.add_assoc, Hk'. cbn [Nat.add].
    rewrite (search_loop_descend pf fs _ _ a n); rewrite ?inode_nextname_slash;
      try assumption.
    + rewrite <- Hk2 with (fuel := S fuel). f_equal. lia.
    + now apply inode_compare_own_name.
    + now apply join_path_not_at_nul with (start := i_child n) (b := b).
Qed.

End Sorted.

(** C3.  In a tree with sorted sibling lists (and segments for names), let
    the segments [segs] resolve, by matching alone, to a mountpoint [a], and
    let the path be those segments followed by a delimiter and [rest], so
    that they are a proper prefix of it.  Then inode_search_nofollow returns
    [a], leaves the cursor on [rest] and, when [relpath] is supplied, stores
    [rest] there: the part of the path not consumed, the delimiter after the
    prefix dropped. *)
Theorem mountpoint_absorbs
    (pf : platform) (fs : filesystem) (segs : list string) (a : addr)
    (node : inode) (rest : string) (peer parent relpath : bool) (m : memory) :
  names_are_segments fs ->
  sibling_ordered pf fs ->
  resolves fs (g_root_inode fs) segs a ->
  inodes fs !! a = Some node ->
  INODE_IS_MOUNTPT node = true ->
  exists fuel0 left above,
    let m' := store_parent parent above
                (store_peer peer left (store_relpath relpath rest m)) in
    (forall fuel, (fuel0 <= fuel)%nat ->
       inode_search_nofollow pf fs fuel (String SLASH (join_path segs rest))
         peer parent relpath m = Done (Some a, rest, m')) /\
    (relpath = true -> relpath_cell m' = Some rest) /\
    (relpath = false -> relpath_cell m' = relpath_cell m).
Proof.
  intros Hnames Hsorted Hres Ha Hm.
  destruct (search_loop_to_mountpoint pf fs Hnames Hsorted _ _ _ Hres node rest
              None None relpath m Ha Hm) as (k & left & above & Hk).
  exists k, left, above. cbv zeta. repeat split.
  - intros fuel Hfuel. unfold inode_search_nofollow.
    cbn [skip_leading mbind outcome_bind].
    replace fuel with (k + (fuel - k))%nat by lia. rewrite Hk. reflexivity.
  - intros ->. now destruct parent, peer.
  - intros ->. now destruct parent, peer.
Qed.

(** ** pthread_condattr_init *)

(** C10.  pthread_condattr_init with a null [attr] returns EINVAL and leaves
    every object as it was; with a non-null [attr] it stores 0 in the object
    [attr] points to, and in no other, and returns OK, which is 0.  There is
    no other outcome. *)
Theorem pthread_condattr_init_outcomes
    (EINVAL : Z) (attr : option addr) (s : Pthread.state) :
  let (ret, s') := Pthread.pthread_condattr_init EINVAL attr s in
  (attr = None /\ ret = EINVAL /\ Pthread.objects s' = Pthread.objects s) \/
  (exists a, attr = Some a /\ ret = Pthread.OK /\ ret = 0 /\
     Pthread.objects s' = <[a := 0]> (Pthread.objects s) /\
     Pthread.objects s' !! a = Some 0 /\
     forall b, b <> a -> Pthread.objects s' !! b = Pthread.objects s !! b).
Proof.
  destruct attr as [a |]; simpl.
  - right. exists a. repeat split.
    + apply lookup_insert_eq.
    + intros b Hb. now apply lookup_insert_ne.
  - left. repeat split.
Qed.

(** ** The properties on the example trees *)

(** The inodes of a tree written as a list, one after the other. *)
Ltac each_inode H :=
  apply elem_of_list_to_map_2 in H;
  repeat (apply elem_of_cons in H as [H | H];
          [injection H as -> -> |]);
  try (apply elem_of_nil in H; contradiction).

Section Examples.

Import Trees.
Local Open Scope string_scope.

Lemma T1_names : names_are_segments T1.
Proof.
  intros a n H. each_inode H; eexists; (split; [reflexivity | reflexivity]).
Qed.

Lemma T1_sorted pf : sibling_ordered pf T1.
Proof.
  intros a n p H Hp. each_inode H; try discriminate; injection Hp as <-;
    (eexists; split; [reflexivity |]); destruct pf as [[|] u s]; reflexivity.
Qed.

Lemma T1_mnt : resolves T1 (g_root_inode T1) ["mnt"] 3%positive.
Proof.
  apply resolves_last with (n := named Mountpoint "mnt" None None);
    [| reflexivity | reflexivity].
  apply chain_next with (n := named Ordinary "bin" (Some 2%positive) (Some 4%positive));
    [reflexivity |].
  apply chain_next with (n := named Ordinary "dev" (Some 3%positive) (Some 6%positive));
    [reflexivity |].
  apply chain_here.
Qed.

Lemma plain_no_softlinks : no_softlinks plain.
Proof. intros a n H. each_inode H; reflexivity. Qed.

Lemma plain_no_mountpoints : no_mountpoints plain.
Proof. intros a n H. each_inode H; reflexivity. Qed.

Lemma plain_closed : closed plain.
Proof.
  split.
  - intros r H. injection H as <-. eexists. reflexivity.
  - intros a n p H Hp. each_inode H; destruct Hp as [Hp | Hp]; try discriminate;
      injection Hp as <-; eexists; reflexivity.
Qed.

Lemma plain_ranked : ranked plain plain_rank.
Proof.
  intros a n p H Hp. each_inode H; destruct Hp as [Hp | Hp]; try discriminate;
    injection Hp as <-; vm_compute; lia.
Qed.

Lemma single_names : names_not_empty single.
Proof.
  intros a n H. unfold single in H. cbn [inodes] in H.
  apply lookup_singleton_Some in H as [_ <-]. eexists _, _. split; reflexivity.
Qed.

Lemma single_root r : g_root_inode single = Some r -> is_Some (inodes single !! r).
Proof. intros H. injection H as <-. eexists. reflexivity. Qed.

End Examples.

(** C4 on the segment "bin" of "/bin/ls": it matches the name "bin", is
    below the name "binary" and above the name "bi". *)
Lemma inode_compare_ends_witness :
  is_segment "bin" = true /\
  _inode_compare Trees.signed_char (Some "bin/ls"%string)
    (named Ordinary "bin" None None) = 0 /\
  _inode_compare Trees.signed_char (Some "bin/ls"%string)
    (named Ordinary "bi" None None) = 1 /\
  _inode_compare Trees.signed_char (Some "bin/ls"%string)
    (named Ordinary "binary" None None) = -1.
Proof.
  destruct (inode_compare_ends Trees.signed_char) as (_ & _ & H).
  split; [reflexivity |]. split; [| split].
  - destruct (H "bin"%string "/ls"%string ""%string None None Ordinary eq_refl)
      as (H0 & _ & _).
    exact (H0 eq_refl eq_refl).
  - destruct (H "bi"%string "n/ls"%string ""%string None None Ordinary eq_refl)
      as (_ & H1 & _).
    exact (H1 eq_refl eq_refl).
  - destruct (H "bin"%string "/ls"%string "ary"%string None None Ordinary eq_refl)
      as (_ & _ & H2).
    exact (H2 eq_refl eq_refl).
Defined.

(** C2 fails where [char] is signed: the segment byte 0xC8 against the name
    byte "a", both at the first position, gives -1 and not +1. *)
Lemma inode_compare_high_byte_signed :
  128 <= byte_value Trees.high_byte /\ byte_value "a" < 128 /\
  _inode_compare Trees.signed_char (Some (String Trees.high_byte EmptyString))
    (named Ordinary "a" None None) = -1 /\
  _inode_compare Trees.signed_char (Some (String Trees.high_byte EmptyString))
    (named Ordinary "a" None None) <> 1.
Proof.
  split; [vm_compute; discriminate |]. split; [reflexivity |].
  split; [reflexivity | discriminate].
Qed.

(** C2 as amended, on the byte 0xC8 against "b" after the common "a": -1
    with a signed [char], +1 with an unsigned one. *)
Lemma inode_compare_differing_bytes_witness :
  _inode_compare Trees.signed_char
    (Some (String "a" (String Trees.high_byte EmptyString)))
    (named Ordinary "ab" None None) = -1 /\
  _inode_compare Trees.unsigned_char
    (Some (String "a" (String Trees.high_byte EmptyString)))
    (named Ordinary "ab" None None) = 1.
Proof.
  split.
  - destruct (inode_compare_differing_bytes Trees.signed_char "a" Trees.high_byte
                EmptyString "b" EmptyString None None Ordinary) as (_ & _ & _ & H);
      [reflexivity | reflexivity | reflexivity | reflexivity | discriminate |].
    apply H; [vm_compute; discriminate | reflexivity].
  - destruct (inode_compare_differing_bytes Trees.unsigned_char "a" Trees.high_byte
                EmptyString "b" EmptyString None None Ordinary) as (_ & _ & _ & H);
      [reflexivity | reflexivity | reflexivity | reflexivity | discriminate |].
    apply H; [vm_compute; discriminate | reflexivity].
Defined.

(** C6 on "bin/ls", "dev" and "mnt/x". *)
Lemma inode_compare_order_witness :
  _inode_compare Trees.signed_char (Some "bin/ls"%string)
    (named Ordinary "dev" None None) =
  - _inode_compare Trees.signed_char (Some "dev"%string)
      (named Ordinary "bin" None None) /\
  _inode_compare Trees.signed_char (Some "bin/ls"%string)
    (named Ordinary "mnt" None None) < 0.
Proof.
  destruct (inode_compare_order Trees.signed_char) as (_ & Hanti & Hlt & _).
  split.
  - exact (Hanti "bin/ls"%string "dev"%string Ordinary Ordinary None None None None).
  - apply (Hlt "bin/ls"%string "dev"%string "mnt/x"%string
             Ordinary Ordinary None None None None); reflexivity.
Defined.

(** C7 on the segment "bin". *)
Lemma inode_nextname_spec_witness :
  inode_nextname "bin" = EmptyString /\
  inode_nextname "bin/ls" = "ls"%string /\
  inode_nextname "bin//ls" = "/ls"%string.
Proof.
  destruct inode_nextname_spec as (H & _).
  destruct (H "bin"%string eq_refl) as (H1 & _ & H2 & H3).
  split; [exact H1 |]. split; [exact (H2 "ls"%string) | exact (H3 "ls"%string)].
Defined.

(** C9 on the directory /bin of T1. *)
Lemma inode_linktarget_identity_witness :
  inode_linktarget Trees.signed_char Trees.T1 1 (Some 1%positive) true true true
    Trees.no_memory = Done (Some 1%positive, Trees.no_memory).
Proof.
  apply inode_linktarget_identity
    with (n := named Ordinary "bin" (Some 2%positive) (Some 4%positive));
    reflexivity.
Defined.

(** C8 fails on the tree with the single file /a: the root inode is there,
    so the loop is entered; its body compares the empty segment with "a". *)
Lemma root_lookup_enters_loop :
  names_not_empty Trees.single /\
  enters_loop Trees.single = true /\
  g_root_inode Trees.single = Some 1%positive /\
  _inode_compare Trees.signed_char (Some EmptyString)
    (named Ordinary "a" None None) = -1.
Proof.
  split; [apply single_names |]. repeat split.
Qed.

(** C8 as amended, on the tree with the single file /a. *)
Lemma search_nofollow_root_witness :
  inode_search_nofollow Trees.signed_char Trees.single 1 "/" true true true
    Trees.no_memory =
  Done (None, EmptyString,
        Memory None None None [WriteParent None; WritePeer None]).
Proof.
  exact (proj1 (search_nofollow_root Trees.signed_char Trees.single 0 true true true
                  Trees.no_memory single_names single_root)).
Defined.

(** C3 on T1 and the path "/mnt/a/b/c". *)
Lemma mountpoint_absorbs_witness :
  exists fuel0 left above,
    let m' := store_parent true above
                (store_peer true left
                   (store_relpath true "a/b/c" Trees.no_memory)) in
    (forall fuel, (fuel0 <= fuel)%nat ->
       inode_search_nofollow Trees.signed_char Trees.T1 fuel "/mnt/a/b/c"
         true true true Trees.no_memory = Done (Some 3%positive, "a/b/c"%string, m')) /\
    (true = true -> relpath_cell m' = Some "a/b/c"%string) /\
    (true = false -> relpath_cell m' = relpath_cell Trees.no_memory).
Proof.
  exact (mountpoint_absorbs Trees.signed_char Trees.T1 ["mnt"%string] 3%positive
           (named Mountpoint "mnt" None None) "a/b/c" true true true Trees.no_memory
           T1_names (T1_sorted _) T1_mnt eq_refl eq_refl).
Defined.

(** C5 on the tree [plain]. *)
Lemma search_is_search_nofollow_witness :
  (forall fuel path peer parent relpath m,
     inode_search Trees.signed_char Trees.plain fuel path peer parent relpath m =
     inode_search_nofollow Trees.signed_char Trees.plain fuel path peer parent relpath m) /\
  (exists fuel0, forall fuel, (fuel0 <= fuel)%nat ->
   exists r,
     inode_search_nofollow Trees.signed_char Trees.plain fuel "/bin/sh"
       true true true Trees.no_memory = Done r /\
     inode_search Trees.signed_char Trees.plain fuel "/bin/sh"
       true true true Trees.no_memory = Done r).
Proof.
  destruct (search_is_search_nofollow Trees.signed_char Trees.plain
              plain_no_softlinks plain_no_mountpoints) as (H1 & H2).
  split; [exact H1 |].
  exact (H2 Trees.plain_rank plain_closed plain_ranked "/"%char "bin/sh"%string
           true true true Trees.no_memory).
Defined.

(** ** The scenarios of the spec, run on the model

    Each line gives the node, the cursor, [peer], [parent] and [relpath] the
    call returns with.  At the top level [parent] is NULL. *)

Section Scenarios.

Import Trees.
Local Open Scope string_scope.

Example scenario_S1 :
  run T1 "/bin/ls" = Some (Some 4%positive, "", None, Some 1%positive, Some "").
Proof. vm_compute. reflexivity. Qed.

Example scenario_S2 :
  run T1 "/bin/sh" = Some (Some 5%positive, "", Some 4%positive, Some 1%positive, Some "").
Proof. vm_compute. reflexivity. Qed.

Example scenario_S3 :
  run T1 "/bin/zz" = Some (None, "zz", Some 5%positive, Some 1%positive, None).
Proof. vm_compute. reflexivity. Qed.

Example scenario_S4 :
  run T1 "/aaa" = Some (None, "aaa", None, None, None).
Proof. vm_compute. reflexivity. Qed.

Example scenario_S5 :
  run T1 "/mnt/a/b/c" = Some (Some 3%positive, "a/b/c", Some 2%positive, None, Some "a/b/c").
Proof. vm_compute. reflexivity. Qed.

Example scenario_S6 :
  run T1 "/dev/null" = Some (Some 6%positive, "", None, Some 2%positive, Some "").
Proof. vm_compute. reflexivity. Qed.

Example scenario_S7 :
  run T2 "/etc/conf" = Some (Some 4%positive, "", None, Some 2%positive, Some "").
Proof. vm_compute. reflexivity. Qed.

Example scenario_S8 :
  run_nofollow T2 "/etc/conf" = Some (Some 3%positive, "", None, Some 1%positive, Some "").
Proof. vm_compute. reflexivity. Qed.

Example scenario_S9 :
  run T2_mounted "/etc/conf/extra" = Some (Some 4%positive, "extra", None, None, Some "extra").
Proof. vm_compute. reflexivity. Qed.

Example scenario_trailing_slash :
  run T1 "/bin/" = Some (Some 1%positive, "", None, None, Some "").
Proof. vm_compute. reflexivity. Qed.

Example scenario_double_slash :
  run T1 "/bin//ls" = Some (None, "/ls", None, Some 1%positive, None).
Proof. vm_compute. reflexivity. Qed.

Example scenario_T3 :
  run T3 "/a" = None /\
  run_nofollow T3 "/a" = Some (Some 1%positive, "", None, None, Some "").
Proof. vm_compute. split; reflexivity. Qed.

End Scenarios.

(** * Further properties of the code *)

(** ** When the comparator answers 0 *)

Lemma segment_of_empty fname :
  segment_of fname = EmptyString <-> at_segment_end fname = true.
Proof.
  destruct fname as [| c f]; simpl; [tauto |].
  rewrite at_segment_end_cons. destruct (is_nul c || is_slash c); split;
    intros H; try reflexivity; discriminate.
Qed.

Lemma compare_loop_zero pf fname nname :
  compare_loop pf fname nname = 0 <-> segment_of fname = until_nul nname.
Proof.
  revert fname. induction nname as [| cn nname IH]; intros fname.
  - simpl. rewrite segment_of_empty.
    destruct (at_segment_end fname); split; intros H;
      try reflexivity; discriminate.
  - simpl. destruct (is_nul cn) eqn:Hn.
    { rewrite segment_of_empty.
      destruct (at_segment_end fname); split; intros H;
        try reflexivity; discriminate. }
    destruct fname as [| cf fname].
    { simpl. split; discriminate. }
    rewrite at_segment_end_cons. simpl.
    destruct (is_nul cf || is_slash cf); simpl; [split; discriminate |].
    rewrite Z.gtb_ltb.
    destruct (Z.ltb_spec (char_value pf cn) (char_value pf cf)).
    { split; [discriminate |]. intros H0. injection H0 as -> _. lia. }
    destruct (Z.ltb_spec (char_value pf cf) (char_value pf cn)).
    { split; [discriminate |]. intros H1. injection H1 as -> _. lia. }
    assert (cf = cn) by (apply (char_value_inj pf); lia). subst cf.
    rewrite IH. split; [now intros -> | now intros [= ->]].
Qed.

(** X1.  _inode_compare answers 0 exactly when the segment under the path
    pointer, up to its NUL or delimiter, is the name of the node, up to its
    NUL.  A name with a delimiter in it is therefore matched by no path. *)
Theorem inode_compare_match
    (pf : platform) (fname nname : string) (peer child : ptr) (kind : inode_kind) :
  (_inode_compare pf (Some fname) (Inode peer child kind (Some nname)) = 0 <->
   segment_of fname = until_nul nname) /\
  (is_segment (until_nul nname) = false ->
   _inode_compare pf (Some fname) (Inode peer child kind (Some nname)) <> 0).
Proof.
  unfold _inode_compare. simpl. split; [apply compare_loop_zero |].
  intros Hs H. apply compare_loop_zero in H.
  rewrite <- H, segment_of_is_segment in Hs. discriminate.
Qed.

(** ** The comparator on ASCII names *)

Lemma is_ascii_cons c s :
  is_ascii (String c s) = true -> byte_value c < 128 /\ is_ascii s = true.
Proof.
  simpl. rewrite andb_true_iff. intros [H1 H2]. split; [| exact H2].
  now apply Z.ltb_lt.
Qed.

Lemma compare_loop_ascii pf pf' fname nname :
  is_ascii (segment_of fname) = true -> is_ascii (until_nul nname) = true ->
  compare_loop pf fname nname = compare_loop pf' fname nname.
Proof.
  revert fname. induction nname as [| cn nname IH]; intros fname Hf Hn;
    [reflexivity |].
  simpl in *. destruct (is_nul cn); [reflexivity |].
  destruct fname as [| cf fname]; [reflexivity |].
  rewrite at_segment_end_cons. simpl in *.
  destruct (is_nul cf || is_slash cf); [reflexivity |].
  apply is_ascii_cons in Hf as [Hcf Hf]. apply is_ascii_cons in Hn as [Hcn Hn].
  rewrite !(char_value_ascii pf), !(char_value_ascii pf') by assumption.
  destruct (_ >? _); [reflexivity |]. destruct (_ <? _); [reflexivity |].
  now apply IH.
Qed.

(** X2.  When the segment under the path pointer and the name of the node
    hold only bytes below 0x80, the answer of _inode_compare is the same
    whether [char] is signed or not. *)
Theorem inode_compare_ascii_portable
    (pf pf' : platform) (fname nname : string) (peer child : ptr)
    (kind : inode_kind) :
  is_ascii (segment_of fname) = true -> is_ascii (until_nul nname) = true ->
  _inode_compare pf (Some fname) (Inode peer child kind (Some nname)) =
  _inode_compare pf' (Some fname) (Inode peer child kind (Some nname)).
Proof.
  intros Hf Hn. unfold _inode_compare. simpl. now apply compare_loop_ascii.
Qed.

(** ** The scanner moves forward *)

Lemma append_assoc (a b c : string) : (a +:+ b) +:+ c = a +:+ (b +:+ c).
Proof.
  induction a as [| x a IH]; [reflexivity |].
  rewrite !append_cons. now f_equal.
Qed.

Lemma skip_segment_suffix name :
  exists pre, name = pre +:+ skip_segment name /\
    (pre = EmptyString -> skip_segment name = name).
Proof.
  induction name as [| c name (pre & Heq & Hpre)]; simpl.
  - exists EmptyString. split; reflexivity.
  - destruct (negb (is_nul c) && negb (is_slash c)).
    + exists (String c pre). rewrite append_cons. split; [now f_equal | discriminate].
    + exists EmptyString. split; reflexivity.
Qed.

Lemma inode_nextname_suffix name :
  exists pre, name = pre +:+ inode_nextname name /\
    (is_nul (deref name) = false -> pre <> EmptyString).
Proof.
  unfold inode_nextname.
  destruct (skip_segment_suffix name) as (pre & Heq & Hpre).
  destruct (skip_segment name) as [| c rest] eqn:Hskip.
  - exists pre. split; [exact Heq |]. intros Hn ->.
    rewrite append_empty in Heq. subst name. discriminate.
  - cbn [deref negb]. destruct (is_nul c) eqn:Hc; cbn [negb advance].
    + exists pre. split; [exact Heq |]. intros Hn ->.
      rewrite append_empty in Heq. subst name. simpl in Hn. congruence.
    + exists (pre +:+ String c EmptyString). split.
      * rewrite append_assoc, append_cons, append_empty. exact Heq.
      * intros _ H. destruct pre; discriminate.
Qed.

Lemma append_length (a b : string) :
  String.length (a +:+ b) = (String.length a + String.length b)%nat.
Proof.
  induction a as [| x a IH]; [reflexivity |].
  rewrite append_cons. simpl. now rewrite IH.
Qed.

(** X3.  inode_nextname returns a pointer into the string it was given, at
    or behind its argument: at the argument only when that is at a NUL, and
    otherwise strictly behind it, so that repeated calls reach the end of the
    path. *)
Theorem inode_nextname_advances (name : string) :
  (exists pre, name = pre +:+ inode_nextname name) /\
  (is_nul (deref name) = true -> inode_nextname name = name) /\
  (is_nul (deref name) = false ->
   (String.length (inode_nextname name) < String.length name)%nat).
Proof.
  destruct (inode_nextname_suffix name) as (pre & Heq & Hpre).
  split; [eauto |]. split.
  - intros Hn. unfold inode_nextname.
    destruct name as [| c name]; [reflexivity |].
    simpl in Hn. simpl. rewrite Hn. simpl. now rewrite Hn.
  - intros Hn. specialize (Hpre Hn). rewrite Heq at 2. rewrite append_length.
    destruct pre; [congruence | simpl; lia].
Qed.

(** ** What a walk does to the cursor *)

Section Cursor.

Variable pf : platform.
Variable fs : filesystem.

Lemma search_loop_cursor fuel :
  forall name node left above relpath m w m',
    search_loop pf fs fuel name node left above relpath m = Done (w, m') ->
    exists pre, name = pre +:+ w_name w.
Proof.
  induction fuel as [| fuel IH]; intros name node left above relpath m w m' H.
  { discriminate. }
  assert (Hnext : forall w', (exists pre, inode_nextname name = pre +:+ w_name w') ->
            exists pre, name = pre +:+ w_name w').
  { intros w' (pre & Hpre).
    destruct (inode_nextname_suffix name) as (pre0 & Heq & _).
    exists (pre0 +:+ pre). now rewrite append_assoc, <- Hpre. }
  rewrite search_loop_unfold in H.
  destruct node as [c |]; [| injection H as <- _; now exists EmptyString].
  destruct (load fs c) as [n | |]; try discriminate.
  cbn [mbind outcome_bind] in H. cbv zeta in H.
  destruct (_ <? 0); [injection H as <- _; now exists EmptyString |].
  destruct (_ >? 0); [eapply IH; eauto |].
  destruct (_ || _).
  { injection H as <- _. apply Hnext. now exists EmptyString. }
  apply bind_Done in H as ([newnode m1] & _ & H).
  destruct newnode as [b |].
  2: { injection H as <- _. apply Hnext. now exists EmptyString. }
  destruct (bool_decide (b ≠ c)); [| apply Hnext; eapply IH; eauto].
  destruct (load fs b) as [n' | |]; try discriminate.
  cbn [mbind outcome_bind] in H.
  destruct (INODE_IS_MOUNTPT n'); [| apply Hnext; eapply IH; eauto].
  injection H as <- _. apply Hnext. now exists EmptyString.
Qed.

End Cursor.

(** X4.  A walker that returns leaves the cursor inside the path it was
    given, behind the byte it started at: chasing softlinks, which is done on
    a copy of the pointer, never moves it elsewhere.  inode_search leaves the
    cursor where its call of inode_search_nofollow has put it. *)
Theorem walkers_advance_cursor
    (pf : platform) (fs : filesystem) (fuel : nat) (path : string)
    (peer parent relpath : bool) (m : memory) (node : ptr) (cursor : string)
    (m' : memory) :
  (inode_search_nofollow pf fs fuel path peer parent relpath m =
     Done (node, cursor, m') ->
   exists c pre, path = String c pre +:+ cursor) /\
  (inode_search pf fs fuel path peer parent relpath m = Done (node, cursor, m') ->
   (exists c pre, path = String c pre +:+ cursor) /\
   exists node0 m0, inode_search_nofollow pf fs fuel path peer parent relpath m =
                    Done (node0, cursor, m0)).
Proof.
  assert (Hnf : forall node cursor m',
    inode_search_nofollow pf fs fuel path peer parent relpath m =
      Done (node, cursor, m') ->
    exists c pre, path = String c pre +:+ cursor).
  { clear. intros node cursor m' H. unfold inode_search_nofollow in H.
    destruct path as [| c name]; [discriminate |].
    cbn [skip_leading mbind outcome_bind] in H.
    apply bind_Done in H as ([w m1] & Hloop & H). injection H as _ <- _.
    destruct (search_loop_cursor _ _ _ _ _ _ _ _ _ _ _ Hloop) as (pre & ->).
    now exists c, pre. }
  split; [apply Hnf |].
  intros H. unfold inode_search in H.
  apply bind_Done in H as ([[node0 cursor0] m0] & Hnof & H).
  assert (cursor0 = cursor) as ->.
  { destruct node0 as [a |]; [| now injection H as _ <- _].
    apply bind_Done in H as (n & _ & H).
    destruct (INODE_IS_SOFTLINK n); [| now injection H as _ <- _].
    apply bind_Done in H as ([node1 m1] & _ & H). now injection H as _ <- _. }
  split; [now apply Hnf in Hnof | eauto].
Qed.

(** ** What the link resolver returns *)

Section Links.

Variable pf : platform.
Variable fs : filesystem.

Lemma linktarget_loop_result fuel :
  forall node count peer parent relpath m a m',
    linktarget_loop pf fs fuel node count peer parent relpath m = Done (Some a, m') ->
    exists n, inodes fs !! a = Some n /\ INODE_IS_SOFTLINK n = false.
Proof.
  induction fuel as [| fuel IH]; intros node count peer parent relpath m a m' H.
  { discriminate. }
  rewrite linktarget_loop_unfold in H.
  destruct node as [c |]; [| discriminate].
  destruct (load fs c) as [n | |] eqn:Hc; try discriminate.
  apply load_inv in Hc. cbn [mbind outcome_bind] in H.
  destruct (i_kind n) as [| | link] eqn:Hk.
  - injection H as <- _. exists n. unfold INODE_IS_SOFTLINK. now rewrite Hk.
  - injection H as <- _. exists n. unfold INODE_IS_SOFTLINK. now rewrite Hk.
  - apply bind_Done in H as ([[node' path'] m1] & _ & H).
    destruct node' as [b |]; [eapply IH; eauto |].
    destruct (_ >? _); [discriminate | eapply IH; eauto].
Qed.

End Links.

(** X5.  A node that inode_linktarget returns is an inode that is not a
    softlink: the resolver returns NULL or the end of the chain of links. *)
Theorem inode_linktarget_not_softlink
    (pf : platform) (fs : filesystem) (fuel : nat) (node : ptr)
    (peer parent relpath : bool) (m : memory) (a : addr) (m' : memory) :
  inode_linktarget pf fs fuel node peer parent relpath m = Done (Some a, m') ->
  exists n, inodes fs !! a = Some n /\ INODE_IS_SOFTLINK n = false.
Proof. apply linktarget_loop_result. Qed.

(** X6.  A node that inode_search returns is an inode that is not a
    softlink: the terminal softlink of a path is always dereferenced. *)
Theorem inode_search_not_softlink
    (pf : platform) (fs : filesystem) (fuel : nat) (path : string)
    (peer parent relpath : bool) (m : memory) (a : addr) (cursor : string)
    (m' : memory) :
  inode_search pf fs fuel path peer parent relpath m = Done (Some a, cursor, m') ->
  exists n, inodes fs !! a = Some n /\ INODE_IS_SOFTLINK n = false.
Proof.
  unfold inode_search. intros H.
  apply bind_Done in H as ([[node0 cursor0] m0] & _ & H).
  destruct node0 as [b |]; [| discriminate].
  apply bind_Done in H as (n & Hb & H). apply load_inv in Hb.
  destruct (INODE_IS_SOFTLINK n) eqn:Hs.
  - apply bind_Done in H as ([node1 m1] & Hl & H). injection H as -> _ _.
    now apply linktarget_loop_result in Hl.
  - injection H as <- _ _. eauto.
Qed.

(** ** SYMLOOP_MAX has no effect *)

Section Limit.

Variable pf pf' : platform.
Variable fs : filesystem.
Hypothesis Hchar : char_is_signed pf = char_is_signed pf'.

Lemma char_value_same c : char_value pf c = char_value pf' c.
Proof. unfold char_value. now rewrite Hchar. Qed.

Lemma compare_loop_same fname nname :
  compare_loop pf fname nname = compare_loop pf' fname nname.
Proof.
  revert fname. induction nname as [| cn nname IH]; intros fname; simpl;
    [reflexivity |].
  rewrite !char_value_same. now rewrite IH.
Qed.

Lemma inode_compare_same fname n :
  _inode_compare pf fname n = _inode_compare pf' fname n.
Proof.
  unfold _inode_compare. destruct (i_name n), fname; try reflexivity.
  apply compare_loop_same.
Qed.

Lemma any_limit_step fuel :
  search_loop_any_limit pf pf' fs fuel /\ linktarget_loop_any_limit pf pf' fs fuel.
Proof.
  induction fuel as [| fuel [IHs IHl]].
  { split; intros ? *; discriminate. }
  split.
  - intros name node left above relpath m r H.
    rewrite search_loop_unfold in H. rewrite search_loop_unfold.
    destruct node as [a |]; [| exact H].
    destruct (load fs a) as [n | |]; try discriminate.
    cbn [mbind outcome_bind] in *. cbv zeta in *.
    rewrite <- inode_compare_same.
    destruct (_ <? 0); [exact H |].
    destruct (_ >? 0); [now apply IHs |].
    destruct (_ || _); [exact H |].
    apply bind_Done in H as ([newnode m'] & H1 & H2).
    rewrite (IHl _ _ 0 _ _ _ _ _ H1). cbn [mbind outcome_bind].
    destruct newnode as [b |]; [| exact H2].
    destruct (bool_decide (b ≠ a)); [| now apply IHs].
    destruct (load fs b) as [n' | |]; try discriminate.
    cbn [mbind outcome_bind] in *.
    destruct (INODE_IS_MOUNTPT n'); [exact H2 | now apply IHs].
  - intros node count count' peer parent relpath m r H.
    rewrite linktarget_loop_unfold in H. rewrite linktarget_loop_unfold.
    destruct node as [a |]; [| exact H].
    destruct (load fs a) as [n | |]; try discriminate.
    cbn [mbind outcome_bind] in *.
    destruct (i_kind n) as [| | link]; try exact H.
    apply bind_Done in H as ([[node' path'] m'] & H1 & H2).
    assert (H1' : inode_search_nofollow pf' fs (S fuel) link peer parent relpath m =
                  Done (node', path', m')).
    { unfold inode_search_nofollow in *.
      destruct (skip_leading link) as [name | |]; try discriminate.
      cbn [mbind outcome_bind] in *.
      apply bind_Done in H1 as ([w m1] & Hw & H1).
      now rewrite (IHs _ _ _ _ _ _ _ Hw). }
    rewrite H1'. cbn [mbind outcome_bind].
    destruct node' as [b |]; [now apply (IHl _ count) |].
    assert (r = (None, m')) as ->.
    { destruct (_ >? _); [congruence |].
      destruct fuel; [discriminate |]. rewrite linktarget_loop_null in H2. congruence. }
    destruct (incr_count pf' count' >? SYMLOOP_MAX pf');
      [reflexivity | apply linktarget_loop_null].
Qed.

End Limit.

(** X7.  What inode_linktarget and the two walkers return does not depend on
    SYMLOOP_MAX, nor on the width of [unsigned int]: a call that returns on
    one platform returns the same on any platform with the same [char], given
    one unit of fuel more.  The bound on the count is never what ends the
    loop of inode_linktarget. *)
Theorem symloop_max_is_ignored
    (pf pf' : platform) (fs : filesystem) (fuel : nat)
    (peer parent relpath : bool) (m : memory) :
  char_is_signed pf = char_is_signed pf' ->
  (forall node r,
     inode_linktarget pf fs fuel node peer parent relpath m = Done r ->
     inode_linktarget pf' fs (S fuel) node peer parent relpath m = Done r) /\
  (forall path r,
     inode_search_nofollow pf fs fuel path peer parent relpath m = Done r ->
     inode_search_nofollow pf' fs (S fuel) path peer parent relpath m = Done r) /\
  (forall path r,
     inode_search pf fs fuel path peer parent relpath m = Done r ->
     inode_search pf' fs (S fuel) path peer parent relpath m = Done r).
Proof.
  intros Hchar.
  destruct (any_limit_step pf pf' fs Hchar fuel) as [Hs Hl].
  assert (Hnf : forall path peer parent relpath m r,
    inode_search_nofollow pf fs fuel path peer parent relpath m = Done r ->
    inode_search_nofollow pf' fs (S fuel) path peer parent relpath m = Done r).
  { clear peer parent relpath m. intros path peer parent relpath m r H.
    unfold inode_search_nofollow in *.
    destruct (skip_leading path) as [name | |]; try discriminate.
    cbn [mbind outcome_bind] in *.
    apply bind_Done in H as ([w m1] & Hw & H).
    now rewrite (Hs _ _ _ _ _ _ _ Hw). }
  split; [| split].
  - intros node r H. unfold inode_linktarget in *. now apply (Hl _ 0).
  - intros path r. apply Hnf.
  - intros path r H. unfold inode_search in *.
    apply bind_Done in H as ([[node0 cursor0] m0] & H0 & H).
    rewrite (Hnf _ _ _ _ _ _ H0). cbn [mbind outcome_bind].
    destruct node0 as [a |]; [| exact H].
    destruct (load fs a) as [n | |]; try discriminate.
    cbn [mbind outcome_bind] in *.
    destruct (INODE_IS_SOFTLINK n); [| exact H].
    apply bind_Done in H as ([node1 m1] & H1 & H).
    unfold inode_linktarget in *. now rewrite (Hl _ 0 0 _ _ _ _ _ H1).
Qed.

(** ** A miss tells where to insert *)

Section Miss.

Variable pf : platform.
Variable fs : filesystem.

Lemma peer_chain_snoc start p np a :
  peer_chain fs start p -> inodes fs !! p = Some np -> i_peer np = Some a ->
  peer_chain fs start a.
Proof.
  induction 1 as [p | c n p Hc Hchain IH]; intros Hp Ha.
  - apply chain_next with (n := np); [assumption |]. rewrite Ha. apply chain_here.
  - apply chain_next with (n := n); [assumption |]. now apply IH.
Qed.

Lemma search_loop_miss fuel :
  forall name node left above relpath m w m',
    walk_invariant pf fs name node left above ->
    search_loop pf fs fuel name node left above relpath m = Done (w, m') ->
    w_node w = None ->
    insertion_point pf fs (w_name w) (w_left w) (w_above w) /\
    (forall p, w_left w = Some p -> peer_chain fs (level_start fs (w_above w)) p).
Proof.
  induction fuel as [| fuel IH];
    intros name node left above relpath m w m' Hinv H Hw.
  { discriminate. }
  rewrite search_loop_unfold in H.
  destruct node as [c |].
  { destruct (load fs c) as [n | |] eqn:Hc; try discriminate.
    apply load_inv in Hc. cbn [mbind outcome_bind] in H. cbv zeta in H.
    destruct (Z.ltb_spec (_inode_compare pf (Some name) n) 0) as [Hlt | Hge].
    { injection H as <- _. cbn [w_name w_left w_above].
      unfold insertion_point, walk_invariant in *.
      destruct left as [p |].
      - destruct Hinv as (Hchain & np & Hp & Hgt & Hpeer). split.
        + exists np. rewrite Hpeer. repeat split; try assumption.
          exists n. now split.
        + now intros p' [= <-].
      - split; [| discriminate]. destruct above as [q |].
        + destruct Hinv as (nq & Hq & Hchild). exists nq. rewrite Hchild.
          split; [assumption |]. exists n. now split.
        + rewrite <- Hinv. exists n. now split. }
    rewrite Z.gtb_ltb in H.
    destruct (Z.ltb_spec 0 (_inode_compare pf (Some name) n)) as [Hgt | Hle].
    { eapply IH; [| exact H | exact Hw]. split; [| exists n; now repeat split].
      unfold walk_invariant in Hinv. destruct left as [p |].
      - destruct Hinv as (Hchain & np & Hp & _ & Hpeer).
        now apply peer_chain_snoc with (p := p) (np := np).
      - destruct above as [q |].
        + destruct Hinv as (nq & Hq & Hchild). cbn [level_start].
          rewrite Hq, Hchild. apply chain_here.
        + cbn [level_start]. rewrite <- Hinv. apply chain_here. }
    destruct (_ || _); [injection H as <- _; discriminate |].
    apply bind_Done in H as ([newnode m1] & _ & H).
    destruct newnode as [b |]; [| injection H as <- _; discriminate].
    destruct (bool_decide (b ≠ c)).
    - destruct (load fs b) as [n' | |] eqn:Hb; try discriminate.
      apply load_inv in Hb. cbn [mbind outcome_bind] in H.
      destruct (INODE_IS_MOUNTPT n'); [injection H as <- _; discriminate |].
      eapply IH; [| exact H | exact Hw]. exists n'. now split.
    - eapply IH; [| exact H | exact Hw]. exists n. now split. }
  injection H as <- _. cbn [w_name w_left w_above].
  unfold insertion_point, walk_invariant in *.
  destruct left as [p |].
  - destruct Hinv as (Hchain & np & Hp & Hgt & Hpeer). split.
    + exists np. rewrite Hpeer. now repeat split.
    + now intros p' [= <-].
  - split; [| discriminate]. destruct above as [q |].
    + destruct Hinv as (nq & Hq & Hchild). exists nq. rewrite Hchild. now split.
    + now rewrite <- Hinv.
Qed.

End Miss.

(** X9.  When inode_search_nofollow returns no node, [peer] and [parent]
    say where the missing name belongs: the segment under the cursor compares
    above the name of [peer] and below the name of the peer of [peer], if
    there is one; with no [peer] it compares below the first child of
    [parent], or below the root inode when [parent] is NULL too, if there is
    one. *)
Theorem miss_gives_insertion_point
    (pf : platform) (fs : filesystem) (fuel : nat) (path : string)
    (relpath : bool) (m : memory) (cursor : string) (m' : memory) :
  inode_search_nofollow pf fs fuel path true true relpath m = Done (None, cursor, m') ->
  insertion_point pf fs cursor (peer_cell m') (parent_cell m').
Proof.
  unfold inode_search_nofollow. intros H.
  apply bind_Done in H as (name & _ & H).
  apply bind_Done in H as ([w m1] & Hloop & H).
  injection H as Hnode <- <-. cbn [peer_cell parent_cell store_peer store_parent].
  assert (Hinv : walk_invariant pf fs name (g_root_inode fs) None None)
    by reflexivity.
  exact (proj1 (search_loop_miss pf fs _ _ _ _ _ _ _ _ _ Hinv Hloop Hnode)).
Qed.

(** ** Hits and misses in a tree without softlinks *)

Section Plain.

Variable pf : platform.
Variable fs : filesystem.
Hypothesis Hplain : no_softlinks fs.

Lemma search_loop_plain_result fuel :
  forall name node left above relpath m w m',
    search_loop pf fs fuel name node left above relpath m = Done (w, m') ->
    match w_node w with
    | None => m' = m
    | Some a =>
        m' = store_relpath relpath (w_name w) m /\
        exists pre cur n,
          name = pre +:+ cur /\ inodes fs !! a = Some n /\
          _inode_compare pf (Some cur) n = 0 /\ w_name w = inode_nextname cur
    end.
Proof.
  induction fuel as [| fuel IH]; intros name node left above relpath m w m' H.
  { discriminate. }
  rewrite search_loop_unfold in H.
  destruct node as [c |]; [| now injection H as <- <-].
  destruct (load fs c) as [n | |] eqn:Hc; try discriminate.
  apply load_inv in Hc. cbn [mbind outcome_bind] in H. cbv zeta in H.
  destruct (Z.ltb_spec (_inode_compare pf (Some name) n) 0) as [Hlt | Hge];
    [now injection H as <- <- |].
  rewrite Z.gtb_ltb in H.
  destruct (Z.ltb_spec 0 (_inode_compare pf (Some name) n)) as [Hgt | Hle];
    [now apply IH in H |].
  assert (Hzero : _inode_compare pf (Some name) n = 0) by lia.
  destruct (_ || _).
  { injection H as <- <-. cbn [w_node w_name]. split; [reflexivity |].
    now exists EmptyString, name, n. }
  apply bind_Done in H as ([newnode m1] & Hlink & H).
  destruct fuel as [| fuel]; [discriminate |].
  rewrite (linktarget_loop_plain pf fs fuel c n _ _ _ _ _ Hc (Hplain c n Hc)) in Hlink.
  injection Hlink as <- <-.
  rewrite bool_decide_eq_false_2 in H by (intros Hne; now apply Hne).
  apply IH in H. destruct (w_node w) as [a |]; [| exact H].
  destruct H as (Hm & pre & cur & na & Heq & Ha & Hcmp & Hw).
  split; [exact Hm |].
  destruct (inode_nextname_suffix name) as (pre0 & Hpre0 & _).
  exists (pre0 +:+ pre), cur, na. repeat split; try assumption.
  now rewrite append_assoc, <- Heq.
Qed.

End Plain.

(** X12.  In a tree without softlinks, inode_search_nofollow stores through
    [relpath] exactly when it returns a node, and what it stores is the
    cursor it leaves; on a miss the variable of the caller keeps its value. *)
Theorem relpath_written_on_hit
    (pf : platform) (fs : filesystem) (fuel : nat) (path : string)
    (peer parent relpath : bool) (m : memory) (node : ptr) (cursor : string)
    (m' : memory) :
  no_softlinks fs ->
  inode_search_nofollow pf fs fuel path peer parent relpath m =
    Done (node, cursor, m') ->
  relpath_cell m' =
    match node with
    | Some _ => if relpath then Some cursor else relpath_cell m
    | None => relpath_cell m
    end.
Proof.
  intros Hplain H. unfold inode_search_nofollow in H.
  apply bind_Done in H as (name & _ & H).
  apply bind_Done in H as ([w m1] & Hloop & H).
  injection H as <- <- <-.
  apply (search_loop_plain_result pf fs Hplain) in Hloop.
  assert (Hcell : relpath_cell (store_parent parent (w_above w)
                    (store_peer peer (w_left w) m1)) = relpath_cell m1)
    by now destruct parent, peer.
  rewrite Hcell. destruct (w_node w) as [a |]; [| now subst m1].
  destruct Hloop as [-> _]. now destruct relpath.
Qed.

(** X14.  In a tree without softlinks, a node that inode_search_nofollow
    returns carries the name of the last segment consumed: the path ends in
    a part whose first segment is the name of that node, and the cursor is
    left behind that segment and the delimiter after it. *)
Theorem hit_names_last_segment
    (pf : platform) (fs : filesystem) (fuel : nat) (path : string)
    (peer parent relpath : bool) (m : memory) (a : addr) (cursor : string)
    (m' : memory) :
  no_softlinks fs ->
  inode_search_nofollow pf fs fuel path peer parent relpath m =
    Done (Some a, cursor, m') ->
  exists c pre cur n nname,
    path = String c pre +:+ cur /\
    inodes fs !! a = Some n /\ i_name n = Some nname /\
    segment_of cur = until_nul nname /\
    cursor = inode_nextname cur.
Proof.
  intros Hplain H. unfold inode_search_nofollow in H.
  destruct path as [| c name]; [discriminate |].
  cbn [skip_leading mbind outcome_bind] in H.
  apply bind_Done in H as ([w m1] & Hloop & H).
  injection H as Hnode <- _.
  apply (search_loop_plain_result pf fs Hplain) in Hloop. rewrite Hnode in Hloop.
  destruct Hloop as (_ & pre & cur & n & Heq & Ha & Hcmp & Hw).
  unfold _inode_compare in Hcmp.
  destruct (i_name n) as [nname |] eqn:Hn; [| discriminate].
  apply compare_loop_zero in Hcmp.
  exists c, pre, cur, n, nname. rewrite append_cons, <- Heq. now repeat split.
Qed.

(** ** Arriving at the inode a path names *)

Section Arrive.

Variable pf : platform.
Variable fs : filesystem.
Hypothesis Hnames : names_are_segments fs.
Hypothesis Hfilled : names_not_empty fs.
Hypothesis Hsorted : sibling_ordered pf fs.

(** As [search_loop_along_chain], with one bound for every tail. *)
Lemma search_loop_chain start b :
  peer_chain fs start b ->
  forall nb s left above,
    inodes fs !! b = Some nb -> i_name nb = Some s ->
    exists k left', forall tail relpath m fuel,
      at_segment_end tail = true ->
      search_loop pf fs (k + fuel) (s +:+ tail) start left above relpath m =
      search_loop pf fs fuel (s +:+ tail) (Some b) left' above relpath m.
Proof.
  induction 1 as [b | a n b Ha Hchain IH]; intros nb s left above Hb Hs.
  - exists O, left. reflexivity.
  - destruct (IH nb s (Some a) above Hb Hs) as (k & left' & Hk).
    exists (S k), left'. intros tail relpath m fuel Ht.
    rewrite <- Hk by assumption. cbn [Nat.add].
    apply search_loop_greater with (n := n); [assumption |].
    pose proof (peer_chain_sorted pf fs Hnames Hsorted _ _ Hchain a n nb Ha eq_refl Hb)
      as Hlt.
    destruct (Hnames a n Ha) as (sa & Hsa & Hsega).
    destruct (Hnames b nb Hb) as (sb & Hsb & Hsegb).
    assert (sb = s) by congruence. subst sb.
    pose proof (compare_names_lt pf _ _ _ _ Hsa Hs Hlt) as H1.
    unfold _inode_compare. rewrite Hsa.
    rewrite compare_loop_tail, compare_loop_antisym by assumption. lia.
Qed.

Lemma resolves_first_name start segs b :
  resolves fs start segs b ->
  exists c s segs', segs = String c s :: segs' /\ is_nul c = false.
Proof.
  destruct 1 as [start s a n Hc Ha Hs | start s segs a n b Hc Ha Hs Hk Hr];
    destruct (Hfilled a n Ha) as (c & r & Hn & Hnul);
    assert (s = String c r) by congruence; subst s; eauto.
Qed.

Lemma path_of_not_at_nul start segs b tail :
  resolves fs start segs b -> is_nul (deref (path_of segs +:+ tail)) = false.
Proof.
  intros H. destruct (resolves_first_name _ _ _ H) as (c & s & segs' & -> & Hc).
  cbn [path_of]. destruct segs'; rewrite ?append_cons; exact Hc.
Qed.

Lemma path_of_step s segs start b tail :
  resolves fs start segs b ->
  path_of (s :: segs) +:+ tail = s +:+ String SLASH (path_of segs +:+ tail).
Proof.
  intros H. destruct (resolves_first_name _ _ _ H) as (c & s' & segs' & -> & _).
  cbn [path_of]. now rewrite append_assoc, append_cons.
Qed.

(** The walker, given segments that resolve to an inode, arrives at that
    inode with the cursor on the last of them. *)
Lemma search_loop_arrives start segs a :
  resolves fs start segs a ->
  forall left above,
  exists k left' above' n s,
    inodes fs !! a = Some n /\ i_name n = Some s /\ is_segment s = true /\
    forall tail relpath m fuel,
      at_segment_end tail = true ->
      search_loop pf fs (k + S fuel) (path_of segs +:+ tail) start left above relpath m =
      search_loop pf fs (S fuel) (s +:+ tail) (Some a) left' above' relpath m.
Proof.
  induction 1 as [start s a n Hc Ha Hs | start s segs a n b Hc Ha Hs Hk Hr IH];
    intros left above;
    destruct (Hnames a n Ha) as (s' & Hs' & Hseg);
    assert (s' = s) by congruence; subst s'.
  - destruct (search_loop_chain _ _ Hc n s left above Ha Hs) as (k & left' & Hk).
    exists k, left', above, n, s. repeat split; try assumption.
    intros tail relpath m fuel Ht. now apply Hk.
  - destruct (search_loop_chain _ _ Hc n s left above Ha Hs) as (k & left' & Hk').
    destruct (IH None (Some a)) as (k2 & left2 & above2 & nb & sb & Hb & Hsb & Hsegb & Hk2).
    exists (k + (1 + k2))%nat, left2, above2, nb, sb. repeat split; try assumption.
    intros tail relpath m fuel Ht.
    rewrite (path_of_step s segs _ _ tail Hr).
    rewrite <- Nat.add_assoc, Hk' by reflexivity.
    replace (1 + k2 + S fuel)%nat with (S (S (k2 + fuel))) by lia.
    rewrite (search_loop_descend pf fs _ _ a n); rewrite ?inode_nextname_slash;
      try assumption.
    + rewrite <- Hk2 by assumption. f_equal. lia.
    + now apply inode_compare_own_name.
    + now apply path_of_not_at_nul with (start := i_child n) (b := b).
Qed.

End Arrive.

(** X8.  In a tree with sorted sibling lists, whose names are non-empty
    segments, let the segments [segs] resolve to the inode [a] through
    ordinary inodes.  Then inode_search_nofollow on the path made of these
    segments returns [a], whatever kind of inode it is, with the cursor at
    the end of the path and the empty rest stored through [relpath]; and the
    same path with a delimiter at its end gives the same result. *)
Theorem existing_path_is_found
    (pf : platform) (fs : filesystem) (segs : list string) (a : addr)
    (peer parent relpath : bool) (m : memory) :
  names_are_segments fs -> names_not_empty fs -> sibling_ordered pf fs ->
  resolves fs (g_root_inode fs) segs a ->
  exists fuel0 left above,
    let m' := store_parent parent above
                (store_peer peer left (store_relpath relpath EmptyString m)) in
    forall fuel, (fuel0 <= fuel)%nat ->
      inode_search_nofollow pf fs fuel (String SLASH (path_of segs))
        peer parent relpath m = Done (Some a, EmptyString, m') /\
      inode_search_nofollow pf fs fuel
        (String SLASH (path_of segs +:+ String SLASH EmptyString))
        peer parent relpath m = Done (Some a, EmptyString, m').
Proof.
  intros Hnames Hfilled Hsorted Hres.
  destruct (search_loop_arrives pf fs Hnames Hfilled Hsorted _ _ _ Hres None None)
    as (k & left & above & n & s & Ha & Hs & Hseg & Hk).
  exists (k + 1)%nat, left, above. cbv zeta. intros fuel Hfuel.
  replace fuel with (k + S (fuel - k - 1))%nat by lia.
  unfold inode_search_nofollow. cbn [skip_leading mbind outcome_bind].
  split.
  - rewrite <- (append_empty_r (path_of segs)).
    rewrite Hk by reflexivity.
    rewrite (search_loop_found pf fs _ _ a n); rewrite ?append_empty_r;
      try assumption.
    + replace (inode_nextname s) with EmptyString; [reflexivity |].
      symmetry. rewrite <- (append_empty_r s) at 1. now rewrite inode_nextname_app.
    + rewrite <- (append_empty_r s) at 1.
      now apply inode_compare_own_name.
    + rewrite <- (append_empty_r s) at 1. now rewrite inode_nextname_app.
  - rewrite Hk by reflexivity.
    rewrite (search_loop_found pf fs _ _ a n); rewrite ?inode_nextname_slash;
      try assumption; try reflexivity.
    now apply inode_compare_own_name.
Qed.

(** X10.  An empty segment in the middle of a path is matched by nothing:
    in such a tree, closed and with [segs] resolving to an ordinary inode
    [a], inode_search_nofollow on these segments followed by two delimiters
    and [rest] returns no node; [parent] is [a], [peer] is NULL, the cursor is
    left on the second delimiter and nothing is stored through [relpath]. *)
Theorem empty_segment_misses
    (pf : platform) (fs : filesystem) (segs : list string) (a : addr)
    (n : inode) (rest : string) (peer parent relpath : bool) (m : memory) :
  names_are_segments fs -> names_not_empty fs -> sibling_ordered pf fs ->
  closed fs ->
  resolves fs (g_root_inode fs) segs a ->
  inodes fs !! a = Some n -> i_kind n = Ordinary ->
  exists fuel0, forall fuel, (fuel0 <= fuel)%nat ->
    inode_search_nofollow pf fs fuel
      (String SLASH (path_of segs +:+ String SLASH (String SLASH rest)))
      peer parent relpath m =
    Done (None, String SLASH rest,
          store_parent parent (Some a) (store_peer peer None m)).
Proof.
  intros Hnames Hfilled Hsorted Hclosed Hres Ha Hkind.
  destruct (search_loop_arrives pf fs Hnames Hfilled Hsorted _ _ _ Hres None None)
    as (k & left & above & n' & s & Ha' & Hs & Hseg & Hk).
  assert (n' = n) by congruence. subst n'.
  exists (k + 3)%nat. intros fuel Hfuel.
  replace fuel with (k + S (S (S (fuel - k - 3))))%nat by lia.
  unfold inode_search_nofollow. cbn [skip_leading mbind outcome_bind].
  rewrite Hk by reflexivity.
  rewrite (search_loop_descend pf fs _ _ a n); rewrite ?inode_nextname_slash;
    try assumption; try reflexivity.
  2: now apply inode_compare_own_name.
  destruct (i_child n) as [c |] eqn:Hchild; [| reflexivity].
  destruct (proj2 Hclosed a n c Ha (or_intror Hchild)) as [nc Hc].
  rewrite (search_loop_less pf fs _ _ c nc); [reflexivity | assumption |].
  destruct (Hfilled c nc Hc) as (x & r & Hn & Hx).
  unfold _inode_compare. rewrite Hn.
  rewrite compare_loop_not_at_end; [lia | exact Hx | reflexivity].
Qed.

(** X11.  A softlink in the middle of a path whose target is not found is
    itself returned, as if the path ended there: with [segs] resolving to
    the softlink [a] and the look-up of its target returning no node,
    inode_search_nofollow on these segments followed by a delimiter and a
    non-empty [rest] returns [a], the cursor left on [rest]. *)
Theorem broken_link_is_returned
    (pf : platform) (fs : filesystem) (segs : list string) (a : addr)
    (n : inode) (link rest : string) (peer parent relpath : bool)
    (m m1 : memory) (fuel1 : nat) (cursor1 : string) :
  names_are_segments fs -> names_not_empty fs -> sibling_ordered pf fs ->
  resolves fs (g_root_inode fs) segs a ->
  inodes fs !! a = Some n -> i_kind n = Softlink link ->
  inode_search_nofollow pf fs fuel1 link false false relpath m =
    Done (None, cursor1, m1) ->
  is_nul (deref rest) = false ->
  exists fuel0 left above, forall fuel, (fuel0 <= fuel)%nat ->
    inode_search_nofollow pf fs fuel
      (String SLASH (path_of segs +:+ String SLASH rest))
      peer parent relpath m =
    Done (Some a, rest, store_parent parent above (store_peer peer left m1)).
Proof.
  intros Hnames Hfilled Hsorted Hres Ha Hkind Hlink Hrest.
  destruct (search_loop_arrives pf fs Hnames Hfilled Hsorted _ _ _ Hres None None)
    as (k & left & above & n' & s & Ha' & Hs & Hseg & Hk).
  assert (n' = n) by congruence. subst n'.
  exists (k + (3 + fuel1))%nat, left, above. intros fuel Hfuel.
  assert (HF : (fuel1 <= S (fuel - k - 3))%nat) by lia.
  replace fuel with (k + S (S (S (fuel - k - 3))))%nat by lia.
  revert HF. generalize (fuel - k - 3)%nat. intros F HF.
  unfold inode_search_nofollow at 1. cbn [skip_leading mbind outcome_bind].
  rewrite Hk by reflexivity. rewrite search_loop_unfold.
  rewrite (load_Done _ _ _ Ha). cbn [mbind outcome_bind]. cbv zeta.
  rewrite (inode_compare_own_name pf n s (String SLASH rest) Hs Hseg eq_refl).
  cbn [Z.ltb Z.gtb Z.compare]. rewrite inode_nextname_slash by assumption.
  rewrite Hrest. unfold INODE_IS_MOUNTPT. rewrite Hkind. cbn [orb].
  rewrite (linktarget_loop_link pf fs _ a n link _ _ _ _ _ Ha Hkind).
  rewrite (inode_search_nofollow_mono pf fs fuel1 (S F) _ _ _ _ _ _ HF Hlink).
  cbn [mbind outcome_bind].
  destruct (_ >? _); [reflexivity |].
  rewrite linktarget_loop_null. reflexivity.
Qed.

(** ** inode_search through a terminal softlink *)

(** X15.  When the path ends on a softlink and the look-up of the link
    target ends on no node or on an inode that is no softlink, inode_search
    returns the result of that second look-up, made with the same [peer],
    [parent] and [relpath]: these describe the target, while the cursor is
    the one the first look-up has left in the path of the caller. *)
Theorem inode_search_follows_terminal_link
    (pf : platform) (fs : filesystem) (path link : string)
    (peer parent relpath : bool) (m m1 m2 : memory) (fuel1 fuel2 : nat)
    (a : addr) (n : inode) (cursor cursor2 : string) (node : ptr) :
  inode_search_nofollow pf fs fuel1 path peer parent relpath m =
    Done (Some a, cursor, m1) ->
  inodes fs !! a = Some n -> i_kind n = Softlink link ->
  inode_search_nofollow pf fs fuel2 link peer parent relpath m1 =
    Done (node, cursor2, m2) ->
  (forall b, node = Some b ->
     exists nb, inodes fs !! b = Some nb /\ INODE_IS_SOFTLINK nb = false) ->
  exists fuel0, forall fuel, (fuel0 <= fuel)%nat ->
    inode_search pf fs fuel path peer parent relpath m = Done (node, cursor, m2).
Proof.
  intros H1 Ha Hkind H2 Hnode.
  exists (fuel1 + fuel2 + 2)%nat. intros fuel Hfuel.
  assert (HF1 : (fuel1 <= S (S (fuel - 2)))%nat) by lia.
  assert (HF2 : (fuel2 <= S (fuel - 2))%nat) by lia.
  replace fuel with (S (S (fuel - 2))) by lia.
  revert HF1 HF2. generalize (fuel - 2)%nat. intros F HF1 HF2.
  unfold inode_search.
  rewrite (inode_search_nofollow_mono pf fs fuel1 _ _ _ _ _ _ _ HF1 H1).
  cbn [mbind outcome_bind]. rewrite (load_Done _ _ _ Ha). cbn [mbind outcome_bind].
  unfold INODE_IS_SOFTLINK. rewrite Hkind. unfold inode_linktarget.
  rewrite (linktarget_loop_link pf fs _ a n link _ _ _ _ _ Ha Hkind).
  rewrite (inode_search_nofollow_mono pf fs fuel2 _ _ _ _ _ _ _ HF2 H2).
  cbn [mbind outcome_bind].
  destruct node as [b |].
  - destruct (Hnode b eq_refl) as (nb & Hb & Hs).
    now rewrite (linktarget_loop_plain pf fs _ b nb _ _ _ _ _ Hb Hs).
  - destruct (_ >? _); [reflexivity |]. now rewrite linktarget_loop_null.
Qed.

(** ** pthread_condattr_init, called again *)

(** X13.  Initialising an attribute object that has been initialised
    changes no object and returns what the first call returned. *)
Theorem pthread_condattr_init_idempotent
    (EINVAL : Z) (attr : option addr) (s : Pthread.state) :
  let (ret1, s1) := Pthread.pthread_condattr_init EINVAL attr s in
  let (ret2, s2) := Pthread.pthread_condattr_init EINVAL attr s1 in
  ret2 = ret1 /\ Pthread.objects s2 = Pthread.objects s1.
Proof.
  destruct attr as [a |]; simpl; split; try reflexivity.
  apply insert_insert_eq.
Qed.

(** ** The further properties on the example trees *)

Section MoreExamples.

Import Trees MoreTrees.
Local Open Scope string_scope.

Lemma T1_filled : names_not_empty T1.
Proof.
  intros a n H. each_inode H; eexists _, _; (split; [reflexivity | reflexivity]).
Qed.

Lemma T1_closed : closed T1.
Proof.
  split.
  - intros r H. injection H as <-. eexists. reflexivity.
  - intros a n p H Hp. each_inode H; destruct Hp as [Hp | Hp]; try discriminate;
      injection Hp as <-; eexists; reflexivity.
Qed.

Lemma T1_no_softlinks : no_softlinks T1.
Proof. intros a n H. each_inode H; reflexivity. Qed.

Lemma T1_bin : resolves T1 (g_root_inode T1) ["bin"] 1%positive.
Proof.
  apply resolves_last
    with (n := named Ordinary "bin" (Some 2%positive) (Some 4%positive));
    [apply chain_here | reflexivity | reflexivity].
Qed.

Lemma T1_bin_sh : resolves T1 (g_root_inode T1) ["bin"; "sh"] 5%positive.
Proof.
  apply resolves_step
    with (a := 1%positive)
         (n := named Ordinary "bin" (Some 2%positive) (Some 4%positive));
    [apply chain_here | reflexivity | reflexivity | reflexivity |].
  apply resolves_last with (n := named Ordinary "sh" None None);
    [| reflexivity | reflexivity].
  apply chain_next with (n := named Ordinary "ls" (Some 5%positive) None);
    [reflexivity | apply chain_here].
Qed.

Lemma T2_broken_names : names_are_segments T2_broken.
Proof.
  intros a n H. each_inode H; eexists; (split; [reflexivity | reflexivity]).
Qed.

Lemma T2_broken_filled : names_not_empty T2_broken.
Proof.
  intros a n H. each_inode H; eexists _, _; (split; [reflexivity | reflexivity]).
Qed.

Lemma T2_broken_sorted pf : sibling_ordered pf T2_broken.
Proof.
  intros a n p H Hp. each_inode H; try discriminate; injection Hp as <-;
    (eexists; split; [reflexivity |]); destruct pf as [[|] u s]; reflexivity.
Qed.

Lemma T2_broken_conf :
  resolves T2_broken (g_root_inode T2_broken) ["etc"; "conf"] 3%positive.
Proof.
  apply resolves_step
    with (a := 1%positive)
         (n := named Ordinary "etc" (Some 2%positive) (Some 3%positive));
    [apply chain_here | reflexivity | reflexivity | reflexivity |].
  apply resolves_last with (n := named (Softlink "/real/conf") "conf" None None);
    [apply chain_here | reflexivity | reflexivity].
Qed.

End MoreExamples.

(** X1 on the name "a/b", which the path "a/b" does not match. *)
Lemma inode_compare_match_witness :
  _inode_compare Trees.signed_char (Some "a/b"%string)
    (named Ordinary "a/b" None None) <> 0.
Proof.
  apply (inode_compare_match Trees.signed_char "a/b" "a/b" None None Ordinary).
  reflexivity.
Defined.

(** X2 on "bin/ls" against "dev". *)
Lemma inode_compare_ascii_portable_witness :
  _inode_compare Trees.signed_char (Some "bin/ls"%string)
    (named Ordinary "dev" None None) =
  _inode_compare Trees.unsigned_char (Some "bin/ls"%string)
    (named Ordinary "dev" None None).
Proof.
  apply (inode_compare_ascii_portable Trees.signed_char Trees.unsigned_char
           "bin/ls" "dev" None None Ordinary); reflexivity.
Defined.

(** X3 on "bin/ls" and on the empty string. *)
Lemma inode_nextname_advances_witness :
  (String.length (inode_nextname "bin/ls") < String.length "bin/ls")%nat /\
  inode_nextname "" = ""%string.
Proof.
  split.
  - apply (inode_nextname_advances "bin/ls"). reflexivity.
  - apply (inode_nextname_advances ""). reflexivity.
Defined.

(** X4 on T1 and "/bin/zz". *)
Lemma walkers_advance_cursor_witness :
  exists c pre, "/bin/zz"%string = String c pre +:+ "zz".
Proof.
  apply (proj1 (walkers_advance_cursor Trees.signed_char Trees.T1 20 "/bin/zz"
                  true true true Trees.no_memory None "zz"
                  (Memory (Some 5%positive) (Some 1%positive) None
                     [WriteParent (Some 1%positive); WritePeer (Some 5%positive)]))).
  vm_compute. reflexivity.
Defined.

(** X5 on the softlink /etc/conf of T2. *)
Lemma inode_linktarget_not_softlink_witness :
  exists n, inodes Trees.T2 !! 4%positive = Some n /\ INODE_IS_SOFTLINK n = false.
Proof.
  apply (inode_linktarget_not_softlink Trees.signed_char Trees.T2 20
           (Some 3%positive) false false false Trees.no_memory 4%positive
           Trees.no_memory).
  vm_compute. reflexivity.
Defined.

(** X6 on T2 and "/etc/conf". *)
Lemma inode_search_not_softlink_witness :
  exists n, inodes Trees.T2 !! 4%positive = Some n /\ INODE_IS_SOFTLINK n = false.
Proof.
  apply (inode_search_not_softlink Trees.signed_char Trees.T2 20 "/etc/conf"
           false false false Trees.no_memory 4%positive "" Trees.no_memory).
  vm_compute. reflexivity.
Defined.

(** X7 on T2_broken, where the look-up of the link target fails, with
    SYMLOOP_MAX 8 and SYMLOOP_MAX 0. *)
Lemma symloop_max_is_ignored_witness :
  inode_linktarget MoreTrees.small_limits MoreTrees.T2_broken 21 (Some 3%positive)
    false false false Trees.no_memory = Done (None, Trees.no_memory).
Proof.
  apply (proj1 (symloop_max_is_ignored Trees.signed_char MoreTrees.small_limits
                  MoreTrees.T2_broken 20 false false false Trees.no_memory eq_refl)).
  vm_compute. reflexivity.
Defined.

(** X8 on T1 and "/bin/sh". *)
Lemma existing_path_is_found_witness :
  exists fuel0 left above,
    let m' := store_parent true above
                (store_peer true left (store_relpath true "" Trees.no_memory)) in
    forall fuel, (fuel0 <= fuel)%nat ->
      inode_search_nofollow Trees.signed_char Trees.T1 fuel "/bin/sh"
        true true true Trees.no_memory = Done (Some 5%positive, ""%string, m') /\
      inode_search_nofollow Trees.signed_char Trees.T1 fuel "/bin/sh/"
        true true true Trees.no_memory = Done (Some 5%positive, ""%string, m').
Proof.
  exact (existing_path_is_found Trees.signed_char Trees.T1 ["bin"%string; "sh"%string]
           5%positive true true true Trees.no_memory
           T1_names T1_filled (T1_sorted _) T1_bin_sh).
Defined.

(** X9 on T1 and "/bin/zz": the name belongs behind /bin/sh. *)
Lemma miss_gives_insertion_point_witness :
  insertion_point Trees.signed_char Trees.T1 "zz" (Some 5%positive) (Some 1%positive).
Proof.
  apply (miss_gives_insertion_point Trees.signed_char Trees.T1 20 "/bin/zz" false
           Trees.no_memory "zz"
           (Memory (Some 5%positive) (Some 1%positive) None
              [WriteParent (Some 1%positive); WritePeer (Some 5%positive)])).
  vm_compute. reflexivity.
Defined.

(** X10 on T1 and "/bin//ls". *)
Lemma empty_segment_misses_witness :
  exists fuel0, forall fuel, (fuel0 <= fuel)%nat ->
    inode_search_nofollow Trees.signed_char Trees.T1 fuel "/bin//ls"
      true true true Trees.no_memory =
    Done (None, "/ls"%string,
          store_parent true (Some 1%positive) (store_peer true None Trees.no_memory)).
Proof.
  exact (empty_segment_misses Trees.signed_char Trees.T1 ["bin"%string] 1%positive
           (named Ordinary "bin" (Some 2%positive) (Some 4%positive)) "ls"
           true true true Trees.no_memory
           T1_names T1_filled (T1_sorted _) T1_closed T1_bin eq_refl eq_refl).
Defined.

(** X11 on T2_broken and "/etc/conf/extra". *)
Lemma broken_link_is_returned_witness :
  exists fuel0 left above, forall fuel, (fuel0 <= fuel)%nat ->
    inode_search_nofollow Trees.signed_char MoreTrees.T2_broken fuel
      "/etc/conf/extra" true true true Trees.no_memory =
    Done (Some 3%positive, "extra"%string,
          store_parent true above (store_peer true left Trees.no_memory)).
Proof.
  apply (broken_link_is_returned Trees.signed_char MoreTrees.T2_broken
           ["etc"%string; "conf"%string] 3%positive
           (named (Softlink "/real/conf") "conf" None None) "/real/conf" "extra"
           true true true Trees.no_memory Trees.no_memory 20 "conf"
           T2_broken_names T2_broken_filled (T2_broken_sorted _) T2_broken_conf
           eq_refl eq_refl); [vm_compute; reflexivity | reflexivity].
Defined.

(** X12 on T1 and the miss on "/bin/zz". *)
Lemma relpath_written_on_hit_witness :
  relpath_cell
    (Memory (Some 5%positive) (Some 1%positive) None
       [WriteParent (Some 1%positive); WritePeer (Some 5%positive)]) = None.
Proof.
  apply (relpath_written_on_hit Trees.signed_char Trees.T1 20 "/bin/zz"
           true true true Trees.no_memory None "zz" _ T1_no_softlinks).
  vm_compute. reflexivity.
Defined.

(** X14 on T1 and "/bin/sh". *)
Lemma hit_names_last_segment_witness :
  exists c pre cur n nname,
    "/bin/sh"%string = String c pre +:+ cur /\
    inodes Trees.T1 !! 5%positive = Some n /\ i_name n = Some nname /\
    segment_of cur = until_nul nname /\
    ""%string = inode_nextname cur.
Proof.
  apply (hit_names_last_segment Trees.signed_char Trees.T1 20 "/bin/sh"
           false false false Trees.no_memory 5%positive "" Trees.no_memory
           T1_no_softlinks).
  vm_compute. reflexivity.
Defined.

(** X15 on T2 and "/etc/conf". *)
Lemma inode_search_follows_terminal_link_witness :
  exists fuel0, forall fuel, (fuel0 <= fuel)%nat ->
    inode_search Trees.signed_char Trees.T2 fuel "/etc/conf" false false false
      Trees.no_memory = Done (Some 4%positive, ""%string, Trees.no_memory).
Proof.
  apply (inode_search_follows_terminal_link Trees.signed_char Trees.T2
           "/etc/conf" "/real/conf" false false false
           Trees.no_memory Trees.no_memory Trees.no_memory 20 20
           3%positive (named (Softlink "/real/conf") "conf" None None) "" ""
           (Some 4%positive)).
  - vm_compute. reflexivity.
  - reflexivity.
  - reflexivity.
  - vm_compute. reflexivity.
  - intros b Hb. injection Hb as <-. eexists. split; reflexivity.
Defined.

(** ** A miss in a sorted list is a miss *)

Section TrueMiss.

Variable pf : platform.
Variable fs : filesystem.
Hypothesis Hnames : names_are_segments fs.
Hypothesis Hsorted : sibling_ordered pf fs.

Lemma peer_chain_split start p :
  peer_chain fs start p ->
  forall np b, inodes fs !! p = Some np -> peer_chain fs start b ->
    peer_chain fs (Some b) p \/ peer_chain fs (i_peer np) b.
Proof.
  induction 1 as [p | a n p Ha Hchain IH]; intros np b Hp Hb.
  - inversion Hb as [| a' n' b' Ha' Hrest]; subst.
    + left. apply chain_here.
    + right. congruence.
  - inversion Hb as [| a' n' b' Ha' Hrest]; subst.
    + left. now apply chain_next with (n := n).
    + assert (n' = n) by congruence. subst n'.
      destruct (IH np b Hp Hrest) as [H | H]; [now left | now right].
Qed.

Lemma inode_compare_segment cursor n sn :
  i_name n = Some sn ->
  _inode_compare pf (Some cursor) n = compare_loop pf (segment_of cursor) sn.
Proof.
  intros Hn. unfold _inode_compare. rewrite Hn. apply compare_loop_segment_of.
Qed.

(** An inode in front of one whose name is below the segment is not named by
    the segment. *)
Lemma not_named_before cursor b p nb np :
  peer_chain fs (Some b) p ->
  inodes fs !! b = Some nb -> inodes fs !! p = Some np ->
  0 < _inode_compare pf (Some cursor) np ->
  i_name nb <> Some (segment_of cursor).
Proof.
  intros Hchain Hb Hp Hgt Hname.
  destruct (Hnames p np Hp) as (sp & Hsp & Hsegp).
  rewrite (inode_compare_segment _ _ _ Hsp) in Hgt.
  inversion Hchain as [| a' n' b' Ha' Hrest]; subst.
  - assert (nb = np) by congruence. subst nb.
    assert (sp = segment_of cursor) by congruence. subst sp.
    rewrite compare_loop_refl in Hgt by assumption. lia.
  - assert (n' = nb) by congruence. subst n'.
    pose proof (peer_chain_sorted pf fs Hnames Hsorted _ _ Hrest b nb np Hb eq_refl Hp)
      as Hlt.
    rewrite (compare_names_lt pf _ _ _ _ Hname Hsp Hlt) in Hgt. lia.
Qed.

(** An inode at or behind one whose name is above the segment is not named
    by the segment. *)
Lemma not_named_behind cursor next b nb :
  sorts_before pf fs cursor next ->
  peer_chain fs next b ->
  inodes fs !! b = Some nb ->
  i_name nb <> Some (segment_of cursor).
Proof.
  intros Hnext Hchain Hb Hname.
  inversion Hchain as [c Hc | c nc b' Hc Hrest]; subst; cbn [sorts_before] in Hnext;
    destruct Hnext as (n & Hn & Hlt).
  - assert (n = nb) by congruence. subst n.
    rewrite (inode_compare_segment _ _ _ Hname) in Hlt.
    rewrite compare_loop_refl in Hlt by apply segment_of_is_segment. lia.
  - assert (n = nc) by congruence. subst n.
    destruct (Hnames c nc Hc) as (sc & Hsc & Hsegc).
    rewrite (inode_compare_segment _ _ _ Hsc) in Hlt.
    pose proof (peer_chain_sorted pf fs Hnames Hsorted _ _ Hrest c nc nb Hc eq_refl Hb)
      as Hcb.
    pose proof (compare_names_lt pf _ _ _ _ Hsc Hname Hcb) as H1.
    rewrite compare_loop_antisym in Hlt;
      [rewrite H1 in Hlt; lia | apply segment_of_is_segment | assumption].
Qed.

Lemma insertion_point_absent cursor left above :
  insertion_point pf fs cursor left above ->
  (forall p, left = Some p -> peer_chain fs (level_start fs above) p) ->
  absent_below fs cursor above.
Proof.
  intros Hins Hleft b nb s Hb Hnb Hs ->.
  unfold insertion_point in Hins. destruct left as [p |].
  - destruct Hins as (np & Hp & Hgt & Hnext).
    destruct (peer_chain_split _ _ (Hleft p eq_refl) np b Hp Hb) as [H | H].
    + now apply (not_named_before cursor b p nb np).
    + now apply (not_named_behind cursor (i_peer np) b nb).
  - apply (not_named_behind cursor (level_start fs above) b nb); try assumption.
    destruct above as [q |]; [| exact Hins].
    destruct Hins as (nq & Hq & Hnext). cbn [level_start]. now rewrite Hq.
Qed.

End TrueMiss.

(** X18.  In a tree with sorted sibling lists, whose names are segments, a
    miss of inode_search_nofollow is a true one: no inode of the sibling list
    below [parent] (the root list when [parent] is NULL) has the segment under
    the cursor for its name, though the walker may have left that list before
    its end. *)
Theorem miss_means_absent
    (pf : platform) (fs : filesystem) (fuel : nat) (path : string)
    (relpath : bool) (m : memory) (cursor : string) (m' : memory) :
  names_are_segments fs -> sibling_ordered pf fs ->
  inode_search_nofollow pf fs fuel path true true relpath m = Done (None, cursor, m') ->
  absent_below fs cursor (parent_cell m').
Proof.
  intros Hnames Hsorted H. unfold inode_search_nofollow in H.
  apply bind_Done in H as (name & _ & H).
  apply bind_Done in H as ([w m1] & Hloop & H).
  injection H as Hnode <- <-. cbn [peer_cell parent_cell store_peer store_parent].
  assert (Hinv : walk_invariant pf fs name (g_root_inode fs) None None)
    by reflexivity.
  destruct (search_loop_miss pf fs _ _ _ _ _ _ _ _ _ Hinv Hloop Hnode) as [Hins Hleft].
  now apply (insertion_point_absent pf fs Hnames Hsorted _ (w_left w)).
Qed.

(** ** Softlinks in the middle of a path *)

Section Through.

Variable pf : platform.
Variable fs : filesystem.
Hypothesis Hnames : names_are_segments fs.
Hypothesis Hfilled : names_not_empty fs.
Hypothesis Hsorted : sibling_ordered pf fs.

Variable segs : list string.
Variable a b : addr.
Variable n nb : inode.
Variable link rest cursor1 : string.
Variable relpath : bool.
Variable m m1 : memory.
Variable fuel1 : nat.

Hypothesis Hres : resolves fs (g_root_inode fs) segs a.
Hypothesis Ha : inodes fs !! a = Some n.
Hypothesis Hkind : i_kind n = Softlink link.
Hypothesis Hlink :
  inode_search_nofollow pf fs fuel1 link false false relpath m =
  Done (Some b, cursor1, m1).
Hypothesis Hb : inodes fs !! b = Some nb.
Hypothesis Hplain : INODE_IS_SOFTLINK nb = false.
Hypothesis Hrest : is_nul (deref rest) = false.

Lemma link_target_differs : b <> a.
Proof.
  intros ->. assert (nb = n) by congruence. subst nb.
  unfold INODE_IS_SOFTLINK in Hplain. rewrite Hkind in Hplain. discriminate.
Qed.

(** The walk up to the softlink and through it: what is left is the test
    for a mountpoint and the walk below the target. *)
Lemma search_loop_through_link :
  exists k, forall F, (fuel1 <= S F)%nat ->
    search_loop pf fs (k + S (S (S F))) (path_of segs +:+ String SLASH rest)
      (g_root_inode fs) None None relpath m =
    if INODE_IS_MOUNTPT nb then
      Done (Walk rest (Some b) None None, store_relpath relpath rest m1)
    else
      search_loop pf fs (S (S F)) rest (i_child nb) None (Some b) relpath m1.
Proof.
  destruct (search_loop_arrives pf fs Hnames Hfilled Hsorted _ _ _ Hres None None)
    as (k & left & above & n' & s & Ha' & Hs & Hseg & Hk).
  assert (n' = n) by congruence. subst n'.
  exists k. intros F HF.
  rewrite Hk by reflexivity. rewrite search_loop_unfold.
  rewrite (load_Done _ _ _ Ha). cbn [mbind outcome_bind]. cbv zeta.
  rewrite (inode_compare_own_name pf n s (String SLASH rest) Hs Hseg eq_refl).
  cbn [Z.ltb Z.gtb Z.compare]. rewrite inode_nextname_slash by assumption.
  rewrite Hrest. unfold INODE_IS_MOUNTPT at 1. rewrite Hkind. cbn [orb].
  rewrite (linktarget_loop_link pf fs _ a n link _ _ _ _ _ Ha Hkind).
  rewrite (inode_search_nofollow_mono pf fs fuel1 (S F) _ _ _ _ _ _ HF Hlink).
  cbn [mbind outcome_bind].
  rewrite (linktarget_loop_plain pf fs _ b nb _ _ _ _ _ Hb Hplain).
  cbn [mbind outcome_bind].
  rewrite bool_decide_eq_true_2 by apply link_target_differs.
  rewrite (load_Done _ _ _ Hb). reflexivity.
Qed.

End Through.

(** X16.  A softlink in the middle of a path whose target is a mountpoint
    ends the walk at the mountpoint: with [segs] resolving to the softlink
    [a] and the look-up of its target returning the mountpoint [b],
    inode_search_nofollow on these segments followed by a delimiter and a
    non-empty [rest] returns [b]; the cursor and [relpath] are [rest], the
    part of the path behind the softlink, and [peer] and [parent] are NULL. *)
Theorem mountpoint_through_link
    (pf : platform) (fs : filesystem) (segs : list string) (a b : addr)
    (n nb : inode) (link rest cursor1 : string) (peer parent relpath : bool)
    (m m1 : memory) (fuel1 : nat) :
  names_are_segments fs -> names_not_empty fs -> sibling_ordered pf fs ->
  resolves fs (g_root_inode fs) segs a ->
  inodes fs !! a = Some n -> i_kind n = Softlink link ->
  inode_search_nofollow pf fs fuel1 link false false relpath m =
    Done (Some b, cursor1, m1) ->
  inodes fs !! b = Some nb -> INODE_IS_MOUNTPT nb = true ->
  is_nul (deref rest) = false ->
  exists fuel0, forall fuel, (fuel0 <= fuel)%nat ->
    inode_search_nofollow pf fs fuel
      (String SLASH (path_of segs +:+ String SLASH rest))
      peer parent relpath m =
    Done (Some b, rest,
          store_parent parent None
            (store_peer peer None (store_relpath relpath rest m1))).
Proof.
  intros Hnames Hfilled Hsorted Hres Ha Hkind Hlink Hb Hm Hrest.
  assert (Hplain : INODE_IS_SOFTLINK nb = false).
  { unfold INODE_IS_MOUNTPT in Hm. unfold INODE_IS_SOFTLINK.
    destruct (i_kind nb); [discriminate | reflexivity | discriminate]. }
  destruct (search_loop_through_link pf fs Hnames Hfilled Hsorted segs a b n nb
              link rest cursor1 relpath m m1 fuel1 Hres Ha Hkind Hlink Hb Hplain Hrest)
    as (k & Hk).
  exists (k + (3 + fuel1))%nat. intros fuel Hfuel.
  assert (HF : (fuel1 <= S (fuel - k - 3))%nat) by lia.
  replace fuel with (k + S (S (S (fuel - k - 3))))%nat by lia.
  unfold inode_search_nofollow. cbn [skip_leading mbind outcome_bind].
  rewrite (Hk _ HF), Hm. reflexivity.
Qed.

(** X17.  A softlink in the middle of a path to an ordinary inode is
    transparent: with [segs] resolving to the softlink [a], the look-up of
    its target returning the ordinary inode [b], and [dir] resolving to [b],
    inode_search_nofollow returns the same node, cursor and memory on [rest]
    behind [segs] as on [rest] behind [dir], the second call starting from
    the memory the look-up of the target has left. *)
Theorem softlink_is_transparent
    (pf : platform) (fs : filesystem) (segs dir : list string) (a b : addr)
    (n nb : inode) (link rest cursor1 : string) (peer parent relpath : bool)
    (m m1 : memory) (fuel1 : nat) (r : ptr * string * memory) :
  names_are_segments fs -> names_not_empty fs -> sibling_ordered pf fs ->
  resolves fs (g_root_inode fs) segs a ->
  inodes fs !! a = Some n -> i_kind n = Softlink link ->
  inode_search_nofollow pf fs fuel1 link false false relpath m =
    Done (Some b, cursor1, m1) ->
  inodes fs !! b = Some nb -> i_kind nb = Ordinary ->
  resolves fs (g_root_inode fs) dir b ->
  is_nul (deref rest) = false ->
  returns (fun fuel => inode_search_nofollow pf fs fuel
             (String SLASH (path_of segs +:+ String SLASH rest))
             peer parent relpath m) r <->
  returns (fun fuel => inode_search_nofollow pf fs fuel
             (String SLASH (path_of dir +:+ String SLASH rest))
             peer parent relpath m1) r.
Proof.
  intros Hnames Hfilled Hsorted Hres Ha Hkind Hlink Hb Hkb Hdir Hrest.
  assert (Hplain : INODE_IS_SOFTLINK nb = false)
    by (unfold INODE_IS_SOFTLINK; now rewrite Hkb).
  assert (Hm : INODE_IS_MOUNTPT nb = false)
    by (unfold INODE_IS_MOUNTPT; now rewrite Hkb).
  destruct (search_loop_through_link pf fs Hnames Hfilled Hsorted segs a b n nb
              link rest cursor1 relpath m m1 fuel1 Hres Ha Hkind Hlink Hb Hplain Hrest)
    as (k & Hk).
  destruct (search_loop_arrives pf fs Hnames Hfilled Hsorted _ _ _ Hdir None None)
    as (k' & left' & above' & nb' & s & Hb' & Hs & Hseg & Hk').
  assert (nb' = nb) by congruence. subst nb'.
  assert (Hsame : forall F, (fuel1 <= S F)%nat ->
    inode_search_nofollow pf fs (k + S (S (S F)))
      (String SLASH (path_of segs +:+ String SLASH rest)) peer parent relpath m =
    inode_search_nofollow pf fs (k' + S (S (S F)))
      (String SLASH (path_of dir +:+ String SLASH rest)) peer parent relpath m1).
  { intros F HF. unfold inode_search_nofollow.
    cbn [skip_leading mbind outcome_bind].
    rewrite (Hk _ HF), Hm. rewrite Hk' by reflexivity.
    rewrite (search_loop_descend pf fs _ _ b nb); rewrite ?inode_nextname_slash;
      try assumption; try reflexivity.
    now apply inode_compare_own_name. }
  unfold returns. split; intros [fuel H].
  - exists (k' + S (S (S (fuel + fuel1))))%nat. rewrite <- Hsame by lia.
    eapply inode_search_nofollow_mono; [| exact H]. lia.
  - exists (k + S (S (S (fuel + fuel1))))%nat. rewrite Hsame by lia.
    eapply inode_search_nofollow_mono; [| exact H]. lia.
Qed.

(** ** The properties of misses and softlinks on the example trees *)

Section LinkExamples.

Import Trees MoreTrees.
Local Open Scope string_scope.

Lemma T2_mounted_names : names_are_segments T2_mounted.
Proof.
  intros a n H. each_inode H; eexists; (split; [reflexivity | reflexivity]).
Qed.

Lemma T2_mounted_filled : names_not_empty T2_mounted.
Proof.
  intros a n H. each_inode H; eexists _, _; (split; [reflexivity | reflexivity]).
Qed.

Lemma T2_mounted_sorted pf : sibling_ordered pf T2_mounted.
Proof.
  intros a n p H Hp. each_inode H; try discriminate; injection Hp as <-;
    (eexists; split; [reflexivity |]); destruct pf as [[|] u s]; reflexivity.
Qed.

Lemma T2_mounted_conf :
  resolves T2_mounted (g_root_inode T2_mounted) ["etc"; "conf"] 3%positive.
Proof.
  apply resolves_step
    with (a := 1%positive)
         (n := named Ordinary "etc" (Some 2%positive) (Some 3%positive));
    [apply chain_here | reflexivity | reflexivity | reflexivity |].
  apply resolves_last with (n := named (Softlink "/real/conf") "conf" None None);
    [apply chain_here | reflexivity | reflexivity].
Qed.

Lemma T1_linked_names : names_are_segments T1_linked.
Proof.
  intros a n H. each_inode H; eexists; (split; [reflexivity | reflexivity]).
Qed.

Lemma T1_linked_filled : names_not_empty T1_linked.
Proof.
  intros a n H. each_inode H; eexists _, _; (split; [reflexivity | reflexivity]).
Qed.

Lemma T1_linked_sorted pf : sibling_ordered pf T1_linked.
Proof.
  intros a n p H Hp. each_inode H; try discriminate; injection Hp as <-;
    (eexists; split; [reflexivity |]); destruct pf as [[|] u s]; reflexivity.
Qed.

Lemma T1_linked_bin : resolves T1_linked (g_root_inode T1_linked) ["bin"] 1%positive.
Proof.
  apply resolves_last
    with (n := named Ordinary "bin" (Some 2%positive) (Some 4%positive));
    [apply chain_here | reflexivity | reflexivity].
Qed.

Lemma T1_linked_usr : resolves T1_linked (g_root_inode T1_linked) ["usr"] 7%positive.
Proof.
  apply resolves_last with (n := named (Softlink "/bin") "usr" None None);
    [| reflexivity | reflexivity].
  apply chain_next
    with (n := named Ordinary "bin" (Some 2%positive) (Some 4%positive));
    [reflexivity |].
  apply chain_next
    with (n := named Ordinary "dev" (Some 3%positive) (Some 6%positive));
    [reflexivity |].
  apply chain_next with (n := named Mountpoint "mnt" (Some 7%positive) None);
    [reflexivity | apply chain_here].
Qed.

End LinkExamples.

(** X18 on T1 and "/bin/zz": no inode below /bin is named "zz". *)
Lemma miss_means_absent_witness :
  absent_below Trees.T1 "zz" (Some 1%positive).
Proof.
  apply (miss_means_absent Trees.signed_char Trees.T1 20 "/bin/zz" false
           Trees.no_memory "zz"
           (Memory (Some 5%positive) (Some 1%positive) None
              [WriteParent (Some 1%positive); WritePeer (Some 5%positive)])
           T1_names (T1_sorted _)).
  vm_compute. reflexivity.
Defined.

(** X16 on T2_mounted and "/etc/conf/extra". *)
Lemma mountpoint_through_link_witness :
  exists fuel0, forall fuel, (fuel0 <= fuel)%nat ->
    inode_search_nofollow Trees.signed_char Trees.T2_mounted fuel
      "/etc/conf/extra" true true true Trees.no_memory =
    Done (Some 4%positive, "extra"%string,
          store_parent true None
            (store_peer true None
               (store_relpath true "extra"
                  (store_relpath true "" Trees.no_memory)))).
Proof.
  apply (mountpoint_through_link Trees.signed_char Trees.T2_mounted
           ["etc"%string; "conf"%string] 3%positive 4%positive
           (named (Softlink "/real/conf") "conf" None None)
           (named Mountpoint "conf" None None) "/real/conf" "extra" ""
           true true true Trees.no_memory
           (store_relpath true "" Trees.no_memory) 20
           T2_mounted_names T2_mounted_filled (T2_mounted_sorted _) T2_mounted_conf
           eq_refl eq_refl);
    [vm_compute; reflexivity | reflexivity | reflexivity | reflexivity].
Defined.

(** X17 on T1_linked: "/usr/sh" and "/bin/sh". *)
Lemma softlink_is_transparent_witness :
  returns (fun fuel => inode_search_nofollow Trees.signed_char MoreTrees.T1_linked
             fuel "/usr/sh" false false false Trees.no_memory)
    (Some 5%positive, ""%string, Trees.no_memory) <->
  returns (fun fuel => inode_search_nofollow Trees.signed_char MoreTrees.T1_linked
             fuel "/bin/sh" false false false Trees.no_memory)
    (Some 5%positive, ""%string, Trees.no_memory).
Proof.
  apply (softlink_is_transparent Trees.signed_char MoreTrees.T1_linked
           ["usr"%string] ["bin"%string] 7%positive 1%positive
           (named (Softlink "/bin") "usr" None None)
           (named Ordinary "bin" (Some 2%positive) (Some 4%positive))
           "/bin" "sh" "" false false false Trees.no_memory Trees.no_memory 20
           (Some 5%positive, ""%string, Trees.no_memory)
           T1_linked_names T1_linked_filled (T1_linked_sorted _) T1_linked_usr
           eq_refl eq_refl);
    [vm_compute; reflexivity | reflexivity | reflexivity | apply T1_linked_bin
    | reflexivity].
Defined.
